(** * Equations of motion of the segbot: the derivation notebook

    A model of [code_SEGBOT/ae353_segbot-EoM.ipynb].  The notebook declares
    numeric constants (Python floats), eight SymPy symbols, builds the
    matrices [M], [N] and [R], and computes

      f_partial = simplify(M.inv() * (N + R * Matrix([[tau_l], [tau_r]])))
      f         = simplify(Matrix([[v * sin(phi)], [f_partial]]))

    Python floats are IEEE binary64 numbers: they are modelled by Rocq's
    primitive floats, so every coefficient that Python computes before it
    reaches SymPy is the very number the notebook computes.  SymPy
    expressions are a small syntax tree with a denotation in the reals.

    The library functions [simplify] and [N] are parameters of the model.
    [simplify] is constrained by the contract of an exact simplifier, and
    [Matrix.inv] is the adjugate over the determinant: the arithmetic that
    SymPy itself performs on [Float] coefficients inside these two calls is
    taken as exact.  Statements about [f] are therefore about the
    expression that exact arithmetic gives; the [f] that SymPy computes
    has the same form with coefficients rounded to binary64, and no
    statement below asserts the exact value of a coefficient of that
    [f]. *)

From Stdlib Require Import Reals Lra Lia ZArith QArith Qreals.
From Stdlib Require Import List String Bool Floats.
Import ListNotations.

Set Warnings "-inexact-float".

(** * Part I: the model *)

(** ** Python floats *)

Module PyFloat.

(** The exact rational value of a finite binary64 number.  Infinities and
    NaN have no value; the default 0 is never used, since every float of
    the notebook's matrices is finite ([notebook_floats_finite] below). *)
Definition B2Q (x : float) : Q :=
  match Prim2SF x with
  | S754_finite s mt e =>
      let n := if s then Zneg mt else Zpos mt in
      match e with
      | Z0 => inject_Z n
      | Zpos p => inject_Z (n * Z.pow_pos 2 p)
      | Zneg p => Qmake n (Pos.pow 2 p)
      end
  | _ => 0%Q
  end.

Definition B2R (x : float) : R := Q2R (B2Q x).

(** [x ** 2] on a Python float, for the three operands that the notebook
    squares ([r_w], [h] and [a]): there the C library's [pow], which Python
    calls, returns the correctly rounded square, which is this product.
    (On other operands [pow] may be one unit in the last place away from
    it, and Python raises [OverflowError] where the product overflows.) *)
Definition sq (x : float) : float := (x * x)%float.

End PyFloat.

Import PyFloat.

(** ** SymPy expressions *)

Module sympy.

Inductive expr : Type :=
| Float (x : float)
| Integer (n : Z)
| Symbol (name : string)
| Add (a b : expr)
| Mul (a b : expr)
| Pow (a : expr) (n : Z)
| sin (a : expr)
| cos (a : expr).

Definition Matrix := list (list expr).

End sympy.

Import sympy (expr, Float, Integer, Symbol, Add, Mul, Pow, Matrix).

Declare Scope expr_scope.
Delimit Scope expr_scope with E.
Bind Scope expr_scope with expr.

(** Subtraction, negation and division are SymPy's: a product with [-1]
    and a power [-1]. *)
Notation "a + b" := (Add a b) : expr_scope.
Notation "a * b" := (Mul a b) : expr_scope.
Notation "- a" := (Mul (Integer (-1)) a) : expr_scope.
Notation "a - b" := (Add a (Mul (Integer (-1)) b)) : expr_scope.
Notation "a / b" := (Mul a (Pow b (-1))) : expr_scope.
Notation "a ** n" := (Pow a n) (at level 30, right associativity) : expr_scope.

(** An assignment of real values to symbol names. *)
Definition env := string -> R.

Definition origin : env := fun _ => 0%R.

Definition upd (rho : env) (x : string) (r : R) : env :=
  fun y => if String.eqb y x then r else rho y.

(** The environment with the two torques set. *)
Definition with_torques (rho : env) (tl tr : R) : env :=
  upd (upd rho "tau_l" tl) "tau_r" tr.

Fixpoint eval (rho : env) (e : expr) : R :=
  match e with
  | Float x => B2R x
  | Integer n => IZR n
  | Symbol s => rho s
  | Add a b => eval rho a + eval rho b
  | Mul a b => eval rho a * eval rho b
  | Pow a n => powerRZ (eval rho a) n
  | sympy.sin a => Rtrigo_def.sin (eval rho a)
  | sympy.cos a => Rtrigo_def.cos (eval rho a)
  end.

(** The expression divides by nothing that vanishes under [rho]. *)
Fixpoint wd (rho : env) (e : expr) : Prop :=
  match e with
  | Float _ | Integer _ | Symbol _ => True
  | Add a b | Mul a b => wd rho a /\ wd rho b
  | Pow a n => wd rho a /\ ((n < 0)%Z -> eval rho a <> 0%R)
  | sympy.sin a | sympy.cos a => wd rho a
  end.

(** [expr.free_symbols], as the list of names met left to right. *)
Fixpoint free_symbols (e : expr) : list string :=
  match e with
  | Float _ | Integer _ => []
  | Symbol s => [s]
  | Add a b | Mul a b => free_symbols a ++ free_symbols b
  | Pow a _ | sympy.sin a | sympy.cos a => free_symbols a
  end.

(** Inclusion of lists of names, decided. *)
Definition all_among (names l : list string) : bool :=
  forallb (fun y => existsb (String.eqb y) names) l.

(** ** Matrices of expressions *)

Fixpoint zip_with {X Y Z : Type} (g : X -> Y -> Z) (u : list X) (v : list Y)
  : list Z :=
  match u, v with
  | a :: u', b :: v' => g a b :: zip_with g u' v'
  | _, _ => []
  end.

Definition zero : expr := Integer 0.

Definition entry (A : Matrix) (i j : nat) : expr := nth j (nth i A []) zero.

Definition shape (A : Matrix) : nat * nat :=
  (List.length A, List.length (hd [] A)).

Definition column (A : Matrix) (j : nat) : list expr :=
  map (fun row => nth j row zero) A.

Definition transpose (A : Matrix) : Matrix :=
  map (column A) (seq 0 (List.length (hd [] A))).

Fixpoint dot (u v : list expr) : expr :=
  match u, v with
  | a :: u', b :: v' =>
      match u', v' with
      | [], _ | _, [] => (a * b)%E
      | _, _ => (a * b + dot u' v')%E
      end
  | _, _ => zero
  end.

Definition matmul (A B : Matrix) : Matrix :=
  map (fun row => map (fun j => dot row (column B j))
                      (seq 0 (List.length (hd [] B)))) A.

Definition matadd (A B : Matrix) : Matrix := zip_with (zip_with Add) A B.

Definition matmap (g : expr -> expr) (A : Matrix) : Matrix := map (map g) A.

Definition matrix_free_symbols (A : Matrix) : list string :=
  flat_map (flat_map free_symbols) A.

Definition meval (rho : env) (A : Matrix) : list (list R) :=
  map (map (eval rho)) A.

(** The quadratic form [x^T A x] of a real matrix. *)
Definition rdot (u w : list R) : R :=
  fold_right Rplus 0%R (zip_with Rmult u w).

Definition quadratic_form (A : list (list R)) (x : list R) : R :=
  rdot x (map (fun row => rdot row x) A).

(** The determinant and the inverse of a 3x3 matrix (the only shape the
    notebook inverts): cofactor expansion along the first row, and the
    adjugate divided by the determinant. *)
Definition det (A : Matrix) : expr :=
  let a := entry A in
  (a 0 0 * (a 1 1 * a 2 2 - a 1 2 * a 2 1)
   - a 0 1 * (a 1 0 * a 2 2 - a 1 2 * a 2 0)
   + a 0 2 * (a 1 0 * a 2 1 - a 1 1 * a 2 0))%E%nat.

Definition inv (A : Matrix) : Matrix :=
  let a := entry A in
  let d := det A in
  [[ (a 1 1 * a 2 2 - a 1 2 * a 2 1) / d;
     (a 0 2 * a 2 1 - a 0 1 * a 2 2) / d;
     (a 0 1 * a 1 2 - a 0 2 * a 1 1) / d ];
   [ (a 1 2 * a 2 0 - a 1 0 * a 2 2) / d;
     (a 0 0 * a 2 2 - a 0 2 * a 2 0) / d;
     (a 0 2 * a 1 0 - a 0 0 * a 1 2) / d ];
   [ (a 1 0 * a 2 1 - a 1 1 * a 2 0) / d;
     (a 0 1 * a 2 0 - a 0 0 * a 2 1) / d;
     (a 0 0 * a 1 1 - a 0 1 * a 1 0) / d ]]%E%nat.

(** [Matrix.inv] raises [NonInvertibleMatrixError] when the matrix is
    singular as a matrix of expressions, that is when its determinant is
    the zero function. *)
Definition singular (A : Matrix) : Prop :=
  forall rho, eval rho (det A) = 0%R.

(** ** The contract of [simplify]

    The library's simplifier is a parameter.  It is only asked to keep the
    value of an expression wherever the expression divides by nothing that
    vanishes, to introduce no such division, and to introduce no symbol. *)

Record simplifier (simplify : expr -> expr) : Prop := {
  simplify_wd : forall rho e, wd rho e -> wd rho (simplify e);
  simplify_eval : forall rho e, wd rho e -> eval rho (simplify e) = eval rho e;
  simplify_free_symbols :
    forall e x, In x (free_symbols (simplify e)) -> In x (free_symbols e)
}.

(** ** Cell 2: the constants of the system *)

Module Cell2.

(** The names bound to float literals. *)
Class Constants : Set := {
  m_c : float;        (* Mass of the chassis in kg *)
  ixx_c : float;      (* Roll mass moment of inertia of the chassis *)
  iyy_c : float;      (* Pitch mass moment of inertia of the chassis *)
  izz_c : float;      (* Yaw mass moment of inertia of the chassis *)
  m_w : float;        (* Mass of either wheel in kg *)
  iaa_w : float;      (* Axial mass moment of inertia of the wheels *)
  itt_w : float;      (* Transverse mass moment of inertia of the wheels *)
  r_w : float;        (* Radius of either wheel in meters *)
  h : float;          (* Distance from the CoM of the chassis to wheel axle *)
  a : float;          (* Half the distance between the wheels *)
  r_station : float;  (* The radius of the station in meters *)
  v_station : float   (* The angular velocity of the station in rad/second *)
}.

Section Totals.
Context {K : Constants}.
Local Open Scope float_scope.

Definition m := m_c + 2 * m_w.
Definition ixx := ixx_c + 2 * itt_w.
Definition iyy := iyy_c.
Definition izz := izz_c + 2 * itt_w.

End Totals.

#[global] Instance constants : Constants := {|
  m_c := 12.0;
  ixx_c := 1.0;
  iyy_c := 0.8;
  izz_c := 0.52;
  m_w := 1.2;
  iaa_w := 0.0634;
  itt_w := 0.0327;
  r_w := 0.325;
  h := 0.2;
  a := 0.35;
  r_station := 20.0;
  v_station := -0.1
|}.

(** The same cell with other values for the two station parameters. *)
Definition with_station (K : Constants) (r_station' v_station' : float)
  : Constants := {|
  m_c := m_c; ixx_c := ixx_c; iyy_c := iyy_c; izz_c := izz_c;
  m_w := m_w; iaa_w := iaa_w; itt_w := itt_w; r_w := r_w;
  h := h; a := a;
  r_station := r_station';
  v_station := v_station'
|}.

End Cell2.

(** ** Cell 3: the symbols *)

Module Cell3.

Class Symbols : Set := {
  e_lat : expr;
  phi : expr;
  phidot : expr;
  v : expr;
  theta : expr;
  thetadot : expr;
  tau_l : expr;
  tau_r : expr
}.

#[global] Instance symbols : Symbols := {|
  e_lat := Symbol "e_lat";
  phi := Symbol "phi";
  phidot := Symbol "phidot";
  v := Symbol "v";
  theta := Symbol "theta";
  thetadot := Symbol "thetadot";
  tau_l := Symbol "tau_l";
  tau_r := Symbol "tau_r"
|}.

(** The bindings the cell adds to the namespace: Python variable name and
    value, in the order of the assignments. *)
Definition namespace (S : Symbols) : list (string * expr) :=
  [ ("e_lat", e_lat); ("phi", phi); ("phidot", phidot); ("v", v);
    ("theta", theta); ("thetadot", thetadot);
    ("tau_l", tau_l); ("tau_r", tau_r) ]%string.

End Cell3.

(** ** Cell 4: the derivation *)

Module Cell4.

Import Cell2 Cell3.
Import sympy (sin, cos).

Section Derivation.
Context {K : Constants} {S : Symbols}.
Variable simplify : expr -> expr.

(** In the middle entry SymPy's [Add] folds the two float terms into one
    [Float], their binary64 sum. *)
Definition M : Matrix :=
  [[ Float (m + 2 * iaa_w / sq r_w);
     Integer 0;
     Float (m_c * h) * cos theta ];
   [ Integer 0;
     Float (ixx + m_c * sq h) * sin theta ** 2
       + Float izz * cos theta ** 2
       + Float ((2 * iaa_w * sq a / sq r_w) + 2 * m_w * sq a);
     Integer 0 ];
   [ Float (m_c * h) * cos theta;
     Integer 0;
     Float (iyy * m_c * sq h) ]]%E.

Definition N : Matrix :=
  [[ Float (m_c * h) * (phidot ** 2 + thetadot ** 2) * sin theta ];
   [ Float ((-2) * (ixx - izz + m * sq h))
       * cos theta * sin theta * phidot * thetadot
     - Float (m_c * h) * sin theta * v * phidot ];
   [ Float (ixx - izz + m_c * sq h) * cos theta * sin theta * phidot ** 2
     + Float (m_c * 9.81 * h) * sin theta ]]%E.

Definition R : Matrix :=
  [[ Float (1 / r_w); Float (1 / r_w) ];
   [ Float ((- a) / r_w); Float (a / r_w) ];
   [ Integer (-1); Integer (-1) ]].

(** [Matrix([[tau_l], [tau_r]])] *)
Definition tau : Matrix := [[ tau_l ]; [ tau_r ]].

(** [N + R * Matrix([[tau_l], [tau_r]])] *)
Definition rhs : Matrix := matadd N (matmul R tau).

(** [M.inv() * (N + R * Matrix([[tau_l], [tau_r]]))] *)
Definition solution : Matrix := matmul (inv M) rhs.

Definition f_partial : Matrix := matmap simplify solution.

(** [Matrix([[v * sin(phi)], [f_partial]])]: the blocks stacked. *)
Definition f_blocks : Matrix := [[ v * sin phi ]]%E ++ f_partial.

Definition f : Matrix := matmap simplify f_blocks.

End Derivation.

End Cell4.

(** The names that occur in [f]. *)
Definition arguments : list string :=
  [ "v"; "phi"; "phidot"; "theta"; "thetadot"; "tau_l"; "tau_r" ]%string.

(** ** The coefficients of the matrices

    The real values of the float coefficients that cell 4 computes from the
    constants, and what the proofs need to know about them. *)

Module Coefficients.

Import Cell2.

Section Values.
Context {K : Constants}.

Definition M00 : R := B2R (m + 2 * iaa_w / sq r_w).
Definition M02 : R := B2R (m_c * h).
Definition M22 : R := B2R (iyy * m_c * sq h).
Definition M11_sin : R := B2R (ixx + m_c * sq h).
Definition M11_cos : R := B2R izz.
Definition M11_const : R :=
  B2R ((2 * iaa_w * sq a / sq r_w) + 2 * m_w * sq a).
Definition N0_coef : R := B2R (m_c * h).
Definition N1_coef : R := B2R ((-2) * (ixx - izz + m * sq h)).
Definition N2_coef : R := B2R (ixx - izz + m_c * sq h).
Definition gravity_coef : R := B2R (m_c * 9.81 * h).
Definition R_top : R := B2R (1 / r_w).
Definition R_left : R := B2R ((- a) / r_w).
Definition R_right : R := B2R (a / r_w).

(** The middle entry of [M] and the 2x2 minor of its corners, as functions
    of the value of theta. *)
Definition M11 (rho : env) : R :=
  (M11_sin * (sin (rho "theta"%string) * sin (rho "theta"%string))
   + M11_cos * (cos (rho "theta"%string) * cos (rho "theta"%string))
   + M11_const)%R.

Definition minor (rho : env) : R :=
  (M00 * M22
   - (M02 * cos (rho "theta"%string)) * (M02 * cos (rho "theta"%string)))%R.

End Values.

Record conditioned (K : Constants) : Prop := {
  M00_pos : (0 < M00)%R;
  M02_pos : (0 < M02)%R;
  M22_pos : (0 < M22)%R;
  minor_pos : (M02 * M02 < M00 * M22)%R;
  M11_sin_pos : (0 < M11_sin)%R;
  M11_cos_pos : (0 < M11_cos)%R;
  M11_const_pos : (0 < M11_const)%R;
  M11_sin_cos : (M11_cos < M11_sin)%R;
  R_right_pos : (0 < R_right)%R;
  R_antisymmetric : R_left = (- R_right)%R
}.

End Coefficients.

(** ** The notebook as a sequence of cells

    The kernel keeps the names bound so far and the displayed results.
    Cell 1 binds the library names ([Symbol], [Matrix], [N_sympy],
    [simplify], [sin], [cos]); cell 2 reads no name; cell 3 reads [Symbol];
    cell 4 reads the library names and the names of cells 2 and 3, and
    needs an invertible [M] ([NonInvertibleMatrixError] otherwise); cell 5
    reads [N_sympy] and [f].  A cell that reads an unbound name raises
    [NameError]: a cell that would raise has no step. *)

Module Kernel.

Import Cell2 Cell3.

(** The names cell 4 binds. *)
Record Derived : Set := {
  M : Matrix;
  N : Matrix;
  R : Matrix;
  f_partial : Matrix;
  f : Matrix
}.

Record state : Set := {
  imported : bool;
  constants : option Constants;
  symbols : option Symbols;
  derived : option Derived;
  Out : list Matrix
}.

Definition fresh : state :=
  {| imported := false; constants := None; symbols := None;
     derived := None; Out := [] |}.

Inductive cell : Set := cell1 | cell2 | cell3 | cell4 | cell5.

Definition notebook : list cell := [cell1; cell2; cell3; cell4; cell5].

Section Library.
Variable simplify : expr -> expr.
Variable N_sympy : Matrix -> Z -> Matrix.

Definition derive (K : Constants) (S : Symbols) : Derived :=
  {| M := Cell4.M;
     N := Cell4.N;
     R := Cell4.R;
     f_partial := Cell4.f_partial simplify;
     f := Cell4.f simplify |}.

Inductive step : cell -> state -> state -> Prop :=
| step_imports s :
    step cell1 s
      {| imported := true; constants := constants s; symbols := symbols s;
         derived := derived s; Out := Out s |}
| step_constants s :
    step cell2 s
      {| imported := imported s; constants := Some Cell2.constants;
         symbols := symbols s; derived := derived s; Out := Out s |}
| step_symbols s :
    imported s = true ->
    step cell3 s
      {| imported := imported s; constants := constants s;
         symbols := Some Cell3.symbols; derived := derived s;
         Out := Out s |}
| step_derive s K S :
    imported s = true ->
    constants s = Some K ->
    symbols s = Some S ->
    ~ singular (@Cell4.M K S) ->
    step cell4 s
      {| imported := imported s; constants := constants s;
         symbols := symbols s; derived := Some (derive K S);
         Out := Out s |}
| step_display s d :
    imported s = true ->
    derived s = Some d ->
    step cell5 s
      {| imported := imported s; constants := constants s;
         symbols := symbols s; derived := derived s;
         Out := Out s ++ [N_sympy (f d) 3] |}.

Inductive run : list cell -> state -> state -> Prop :=
| run_done s : run [] s s
| run_cell c cs s s' s'' :
    step c s s' -> run cs s' s'' -> run (c :: cs) s s''.

(** The kernel after Run All on a fresh kernel. *)
Definition final : state :=
  {| imported := true;
     constants := Some Cell2.constants;
     symbols := Some Cell3.symbols;
     derived := Some (derive Cell2.constants Cell3.symbols);
     Out := [N_sympy (Cell4.f simplify) 3] |}.

End Library.

End Kernel.

(** The cells whose names a cell reads: cell 3 calls [Symbol]; cell 4
    calls [Matrix], [sin], [cos] and [simplify] and reads the constants
    and the symbols; cell 5 calls [N_sympy] on [f].  Cells 1 and 2 read no
    name. *)
Definition reads (c : Kernel.cell) : list Kernel.cell :=
  match c with
  | Kernel.cell1 | Kernel.cell2 => []
  | Kernel.cell3 => [Kernel.cell1]
  | Kernel.cell4 => [Kernel.cell1; Kernel.cell2; Kernel.cell3]
  | Kernel.cell5 => [Kernel.cell1; Kernel.cell4]
  end.

(** The names of a cell are bound in a kernel state (for cell 5: it has
    displayed a result). *)
Definition bound (s : Kernel.state) (c : Kernel.cell) : Prop :=
  match c with
  | Kernel.cell1 => Kernel.imported s = true
  | Kernel.cell2 => Kernel.constants s <> None
  | Kernel.cell3 => Kernel.symbols s <> None
  | Kernel.cell4 => Kernel.derived s <> None
  | Kernel.cell5 => Kernel.Out s <> []
  end.

(** Every cell of the sequence comes after the cells whose names it
    reads. *)
Definition well_ordered (cs : list Kernel.cell) : Prop :=
  forall pre c post,
    cs = pre ++ c :: post -> forall c', In c' (reads c) -> In c' pre.

(** ** The notebook's matrices *)

Abbreviation M := (@Cell4.M Cell2.constants Cell3.symbols).
Abbreviation N := (@Cell4.N Cell2.constants Cell3.symbols).
Abbreviation tau := (@Cell4.tau Cell3.symbols).
Abbreviation f_of simplify :=
  (@Cell4.f Cell2.constants Cell3.symbols simplify).

(** ** Further notions

    [expr.atoms(Float)]: the floats of an expression, left to right, and
    the exact value of the [i]-th of them. *)

Fixpoint float_atoms (e : expr) : list float :=
  match e with
  | Float x => [x]
  | Integer _ | Symbol _ => []
  | Add a b | Mul a b => float_atoms a ++ float_atoms b
  | Pow a _ | sympy.sin a | sympy.cos a => float_atoms a
  end.

Definition coefficient (e : expr) (i : nat) : Q :=
  B2Q (nth i (float_atoms e) 0%float).

(** A real matrix applied to a real vector, and the column of a
    one-column real matrix as a vector. *)
Definition rmatvec (A : list (list R)) (x : list R) : list R :=
  map (fun row => rdot row x) A.

Definition rcolumn (A : list (list R)) : list R :=
  map (fun row => hd 0%R row) A.

(** The robot seen in a mirror that exchanges left and right: yaw and yaw
    rate change sign and the two wheel torques are exchanged. *)
Definition mirror (rho : env) : env :=
  fun x =>
    if String.eqb x "phi" then (- rho "phi"%string)%R
    else if String.eqb x "phidot" then (- rho "phidot"%string)%R
    else if String.eqb x "tau_l" then rho "tau_r"%string
    else if String.eqb x "tau_r" then rho "tau_l"%string
    else rho x.

(** The right-hand side [N + R * Matrix([[tau_l], [tau_r]])] as real
    functions of the values of the symbols. *)
Module Forces.

Import Cell2 Coefficients.

Section Values.
Context {K : Constants}.

Definition b0 (rho : env) : R :=
  (N0_coef * (rho "phidot"%string * rho "phidot"%string
              + rho "thetadot"%string * rho "thetadot"%string)
     * sin (rho "theta"%string)
   + R_top * (rho "tau_l"%string + rho "tau_r"%string))%R.

Definition b1 (rho : env) : R :=
  (N1_coef * cos (rho "theta"%string) * sin (rho "theta"%string)
     * rho "phidot"%string * rho "thetadot"%string
   - M02 * sin (rho "theta"%string) * rho "v"%string * rho "phidot"%string
   + (R_left * rho "tau_l"%string + R_right * rho "tau_r"%string))%R.

Definition b2 (rho : env) : R :=
  (N2_coef * cos (rho "theta"%string) * sin (rho "theta"%string)
     * (rho "phidot"%string * rho "phidot"%string)
   + gravity_coef * sin (rho "theta"%string)
   - (rho "tau_l"%string + rho "tau_r"%string))%R.

End Values.

End Forces.

(** ** The recorded output of cell 5

    The three fractions that the notebook stores as the result of
    [N_sympy(f, 3)], below the first row [v * sin(phi)].  Each is a
    function of its numeric coefficients, taken in the order in which they
    are printed. *)

Module Out5.

Definition k (c : list Q) (i : nat) : R := Q2R (nth i c 0%Q).

Section Rows.
Variable c : list Q.
Variable rho : env.

Abbreviation v := (rho "v"%string).
Abbreviation phidot := (rho "phidot"%string).
Abbreviation theta := (rho "theta"%string).
Abbreviation thetadot := (rho "thetadot"%string).
Abbreviation tau_l := (rho "tau_l"%string).
Abbreviation tau_r := (rho "tau_r"%string).

Definition row1 : R :=
  ((- k c 0 * tau_l - k c 1 * tau_r
    - k c 2 * (phidot ^ 2 + thetadot ^ 2) * sin theta
    + k c 3 * (k c 4 * phidot ^ 2 * sin (2 * theta) - tau_l - tau_r
               + k c 5 * sin theta) * cos theta)
   / (k c 6 * cos theta ^ 2 - k c 7))%R.

Definition row2 : R :=
  ((- k c 0 * phidot * thetadot * sin (2 * theta)
    - k c 1 * phidot * v * sin theta
    - k c 2 * tau_l + k c 3 * tau_r)
   / (k c 4 * sin theta ^ 2 + k c 5))%R.

Definition row3 : R :=
  ((- k c 0 * phidot ^ 2 * sin (2 * theta)
    + k c 1 * tau_l + k c 2 * tau_r
    + k c 3 * (k c 4 * tau_l + k c 5 * tau_r
               + k c 6 * (phidot ^ 2 + thetadot ^ 2) * sin theta)
      * cos theta
    - k c 7 * sin theta)
   / (k c 8 * cos theta ^ 2 - k c 9))%R.

End Rows.

(** The coefficients as printed. *)
Definition shown1 : list Q :=
  [18.4; 18.4; 14.4; 37.4; 0.48; 23.5; 89.9; 93.5]%Q.

Definition shown2 : list Q := [1.06; 2.4; 1.08; 1.08; 0.96; 1.03]%Q.

Definition shown3 : list Q :=
  [7.49; 15.6; 15.6; 2.4; 3.08; 3.08; 2.4; 367.0; 5.76; 5.99]%Q.

(** The same coefficients before rounding, from the floats of [M], [N]
    and [R]. *)
Section Exact.
Context {K : Cell2.Constants}.

Abbreviation MK := (@Cell4.M K Cell3.symbols).
Abbreviation NK := (@Cell4.N K Cell3.symbols).
Abbreviation RK := (@Cell4.R K).

Definition A : Q := coefficient (entry MK 0 0) 0.
Definition B : Q := coefficient (entry MK 0 2) 0.
Definition C : Q := coefficient (entry MK 2 2) 0.
Definition D_sin : Q := coefficient (entry MK 1 1) 0.
Definition D_cos : Q := coefficient (entry MK 1 1) 1.
Definition D_const : Q := coefficient (entry MK 1 1) 2.
Definition N1_coef : Q := coefficient (entry NK 1 0) 0.
Definition N2_coef : Q := coefficient (entry NK 2 0) 0.
Definition gravity : Q := coefficient (entry NK 2 0) 1.
Definition R_top : Q := coefficient (entry RK 0 0) 0.
Definition R_right : Q := coefficient (entry RK 1 1) 0.

Definition exact1 : list Q :=
  [A * C * R_top; A * C * R_top; A * C * B; A * B; N2_coef * (1 # 2);
   gravity; A * (B * B); A * A * C]%Q.

Definition exact2 : list Q :=
  [- N1_coef * (1 # 2); B; R_right; R_right; D_sin - D_cos;
   D_cos + D_const]%Q.

Definition exact3 : list Q :=
  [A * N2_coef * (1 # 2); A; A; B; R_top; R_top; B; A * gravity;
   B * B; A * C]%Q.

End Exact.

(** Half a unit of the third significant figure of a printed
    coefficient. *)
Definition half_unit (d : Q) : Q :=
  if Qle_bool 100 d then 1 # 2
  else if Qle_bool 10 d then 1 # 20
  else if Qle_bool 1 d then 1 # 200
  else 1 # 2000.

Definition rounds_to (x d : Q) : bool :=
  Qle_bool (d - half_unit d) x && Qle_bool x (d + half_unit d).

Fixpoint all_round (xs ds : list Q) : bool :=
  match xs, ds with
  | [], [] => true
  | x :: xs', d :: ds' => rounds_to x d && all_round xs' ds'
  | _, _ => false
  end.

End Out5.

(** * Part II: properties *)

Local Open Scope R_scope.

(** ** Environments and evaluation *)

Ltac lookup :=
  unfold with_torques, upd; cbn [String.eqb Ascii.eqb Bool.eqb].

Ltac no_negative_power :=
  let Hneg := fresh in intro Hneg; exfalso; revert Hneg; clear;
  unfold Z.lt; cbn; discriminate.

Lemma simplifier_id : simplifier (fun e => e).
Proof. split; auto. Qed.

Lemma powerRZ_2 (x : R) : powerRZ x 2 = x * x.
Proof. simpl. unfold pow. cbn. ring. Qed.

Lemma powerRZ_m1 (x : R) : powerRZ x (-1) = / x.
Proof. simpl. unfold pow. cbn. now rewrite Rmult_1_r. Qed.

Lemma upd_other rho x r y : y <> x -> upd rho x r y = rho y.
Proof.
  intros Hne. unfold upd.
  destruct (String.eqb_spec y x); [contradiction | reflexivity].
Qed.

(** An expression's value depends only on its free symbols. *)
Lemma eval_ext rho1 rho2 e :
  (forall x, In x (free_symbols e) -> rho1 x = rho2 x) ->
  eval rho1 e = eval rho2 e.
Proof.
  induction e as [ | | s | a IHa b IHb | a IHa b IHb | a IHa n | a IHa | a IHa];
    cbn [eval free_symbols]; intros Hagree; trivial.
  - apply Hagree. now left.
  - rewrite IHa, IHb; trivial; intros x Hx; apply Hagree, in_or_app; auto.
  - rewrite IHa, IHb; trivial; intros x Hx; apply Hagree, in_or_app; auto.
  - now rewrite IHa.
  - now rewrite IHa.
  - now rewrite IHa.
Qed.

Lemma eval_upd_fresh rho x r e :
  ~ In x (free_symbols e) -> eval (upd rho x r) e = eval rho e.
Proof.
  intros Hfresh. apply eval_ext. intros y Hy.
  apply upd_other. intros ->. contradiction.
Qed.

(** A symbol on which the value depends occurs in the expression. *)
Lemma depends_occurs rho x r e :
  eval (upd rho x r) e <> eval rho e -> In x (free_symbols e).
Proof.
  intros Hdiff.
  destruct (in_dec string_dec x (free_symbols e)) as [Hin | Hout]; trivial.
  exfalso. now apply Hdiff, eval_upd_fresh.
Qed.

Lemma all_among_sound names l x :
  all_among names l = true -> In x l -> In x names.
Proof.
  unfold all_among. rewrite forallb_forall. intros Hall Hin.
  apply Hall in Hin. apply existsb_exists in Hin as (y & Hy & Heq).
  apply String.eqb_eq in Heq. now subst.
Qed.

(** ** Real arithmetic *)

Lemma square_pos (x : R) : x <> 0 -> 0 < x * x.
Proof. intros Hx. apply (Rsqr_pos_lt x Hx). Qed.

(** Positivity of the quadratic form of a symmetric matrix with the
    sparsity of [M]: corners [A], [B], [C] and middle entry [D]. *)
Lemma quadratic_form_pos (A B C D x0 x1 x2 : R) :
  0 < A -> 0 < D -> 0 < A * C - B * B ->
  x0 <> 0 \/ x1 <> 0 \/ x2 <> 0 ->
  0 < x0 * (A * x0 + B * x2) + x1 * (D * x1) + x2 * (B * x0 + C * x2).
Proof.
  intros HA HD Hm Hx.
  apply (Rmult_lt_reg_l A); [exact HA |]. rewrite Rmult_0_r.
  replace (A * (x0 * (A * x0 + B * x2) + x1 * (D * x1)
                + x2 * (B * x0 + C * x2)))
    with ((A * x0 + B * x2) * (A * x0 + B * x2)
          + (A * C - B * B) * (x2 * x2) + A * D * (x1 * x1)) by ring.
  pose proof (Rle_0_sqr (A * x0 + B * x2)) as H1.
  pose proof (Rle_0_sqr x2) as S2. pose proof (Rle_0_sqr x1) as S1.
  unfold Rsqr in H1, S1, S2.
  assert (HAD : 0 < A * D) by (apply Rmult_lt_0_compat; assumption).
  assert (H2 : 0 <= (A * C - B * B) * (x2 * x2))
    by (apply Rmult_le_pos; lra).
  assert (H3 : 0 <= A * D * (x1 * x1)) by (apply Rmult_le_pos; lra).
  destruct (Req_dec x2 0) as [E2 | N2].
  - destruct (Req_dec x1 0) as [E1 | N1].
    + assert (N0 : x0 <> 0) by tauto. subst x2.
      replace (A * x0 + B * 0) with (A * x0) in * by ring.
      assert (0 < A * x0 * (A * x0)).
      { apply square_pos, Rmult_integral_contrapositive_currified;
          [lra | exact N0]. }
      lra.
    + apply square_pos in N1.
      assert (0 < A * D * (x1 * x1)) by (apply Rmult_lt_0_compat; lra). lra.
  - apply square_pos in N2.
    assert (0 < (A * C - B * B) * (x2 * x2))
      by (apply Rmult_lt_0_compat; lra).
    lra.
Qed.

Lemma quotient_neq (x y d : R) : 0 < d -> x <> y -> x / d <> y / d.
Proof.
  intros Hd Hxy Heq. apply Hxy.
  apply (Rmult_eq_reg_r (/ d)); [exact Heq |].
  apply Rinv_neq_0_compat. lra.
Qed.

Lemma quotient_neq_denominator (x d1 d2 : R) :
  x <> 0 -> 0 < d1 -> 0 < d2 -> d1 <> d2 -> x / d1 <> x / d2.
Proof.
  intros Hx H1 H2 Hd Heq. apply Hd.
  assert (Hcross : x * d2 = x * d1).
  { apply (Rmult_eq_compat_r (d1 * d2)) in Heq.
    field_simplify in Heq; lra. }
  apply (Rmult_eq_reg_l x) in Hcross; auto.
Qed.

(** ** Linear algebra on 3x3 systems *)

(** Multiplying a 3x3 matrix by its inverse applied to a column gives the
    column back, wherever the determinant does not vanish. *)
Lemma matmul_inv_column rho
  (a00 a01 a02 a10 a11 a12 a20 a21 a22 b0 b1 b2 : expr) :
  let A := [[a00; a01; a02]; [a10; a11; a12]; [a20; a21; a22]] in
  let b := [[b0]; [b1]; [b2]] in
  eval rho (det A) <> 0 ->
  meval rho (matmul A (matmul (inv A) b)) = meval rho b.
Proof.
  intros A b Hdet. subst A b. revert Hdet.
  unfold inv, det, entry.
  cbn [meval map matmul dot column nth hd List.length seq eval].
  rewrite ?powerRZ_m1.
  generalize (eval rho a00) (eval rho a01) (eval rho a02)
             (eval rho a10) (eval rho a11) (eval rho a12)
             (eval rho a20) (eval rho a21) (eval rho a22)
             (eval rho b0) (eval rho b1) (eval rho b2).
  intros x00 x01 x02 x10 x11 x12 x20 x21 x22 y0 y1 y2 Hdet.
  repeat f_equal; field; exact Hdet.
Qed.

(** ** The coefficients of the notebook

    The totals of cell 2 and the coefficients of cell 4 are binary64
    numbers, rounded at every operation. *)

Example m_value : @Cell2.m Cell2.constants = 14.4%float.
Proof. reflexivity. Qed.

Example izz_value : @Cell2.izz Cell2.constants = 0.5854%float.
Proof. reflexivity. Qed.

Example M02_value :
  (Cell2.m_c * Cell2.h)%float = 2.4000000000000004%float.
Proof. reflexivity. Qed.

Example M00_value :
  (Cell2.m + 2 * Cell2.iaa_w / sq Cell2.r_w)%float
  = 15.600473372781066%float.
Proof. reflexivity. Qed.

Example B2Q_value : (B2Q 12.0 == 12)%Q /\ ~ (B2Q 0.2 == 2 # 10)%Q.
Proof. split; vm_compute; [reflexivity | discriminate]. Qed.

(** Every float of [M], [N] and [R] is finite: none is an infinity or a
    NaN. *)
Lemma notebook_floats_finite :
  forallb is_finite
    (flat_map (flat_map float_atoms) (M ++ N ++ @Cell4.R Cell2.constants))
  = true.
Proof. vm_compute. reflexivity. Qed.

(** Comparisons of binary64 values are decided on their exact rationals. *)

Lemma B2R_lt (x y : float) :
  (B2Q x ?= B2Q y)%Q = Lt -> B2R x < B2R y.
Proof. intros Hlt. apply Qlt_Rlt. exact Hlt. Qed.

Lemma B2R_pos (x : float) : (0 ?= B2Q x)%Q = Lt -> 0 < B2R x.
Proof.
  intros Hlt. replace 0 with (Q2R 0) by (unfold Q2R; cbn; lra).
  apply Qlt_Rlt. exact Hlt.
Qed.

Lemma B2R_mul_lt (x y z w : float) :
  (B2Q x * B2Q y ?= B2Q z * B2Q w)%Q = Lt -> B2R x * B2R y < B2R z * B2R w.
Proof.
  intros Hlt. unfold B2R. rewrite <- !Q2R_mult. apply Qlt_Rlt. exact Hlt.
Qed.

Lemma B2R_opp (x y : float) :
  (B2Q x == - B2Q y)%Q -> B2R x = - B2R y.
Proof.
  intros Heq. unfold B2R. rewrite <- Q2R_opp. apply Qeq_eqR. exact Heq.
Qed.

Lemma constants_conditioned : Coefficients.conditioned Cell2.constants.
Proof.
  split.
  - apply B2R_pos. vm_compute. reflexivity.
  - apply B2R_pos. vm_compute. reflexivity.
  - apply B2R_pos. vm_compute. reflexivity.
  - apply B2R_mul_lt. vm_compute. reflexivity.
  - apply B2R_pos. vm_compute. reflexivity.
  - apply B2R_pos. vm_compute. reflexivity.
  - apply B2R_pos. vm_compute. reflexivity.
  - apply B2R_lt. vm_compute. reflexivity.
  - apply B2R_pos. vm_compute. reflexivity.
  - apply B2R_opp. vm_compute. reflexivity.
Qed.

(** The station parameters play no part in the coefficients. *)
Lemma with_station_conditioned (K : Cell2.Constants) r' v' :
  Coefficients.conditioned K ->
  Coefficients.conditioned (Cell2.with_station K r' v').
Proof. intros [? ? ? ? ? ? ? ? ? ?]. split; assumption. Qed.

(** ** The derivation, for conditioned constants *)

Module Derivation.

Import Cell2 Cell3 Coefficients.

Abbreviation theta_of rho := (rho "theta"%string).

Section Generic.
Context {K : Constants}.
Hypothesis HK : conditioned K.

Abbreviation M := (@Cell4.M K symbols).
Abbreviation N := (@Cell4.N K symbols).
Abbreviation tau := (@Cell4.tau symbols).
Abbreviation rhs := (@Cell4.rhs K symbols).
Abbreviation solution := (@Cell4.solution K symbols).

Lemma eval_M00 rho : eval rho (entry M 0 0) = M00.
Proof. reflexivity. Qed.

Lemma eval_M11 rho : eval rho (entry M 1 1) = M11 rho.
Proof.
  unfold M11, entry, Cell4.M. cbn [nth eval theta symbols].
  now rewrite !powerRZ_2.
Qed.

Lemma eval_det rho : eval rho (det M) = M11 rho * minor rho.
Proof.
  unfold det, entry, Cell4.M, M11, minor. cbn [nth eval theta symbols].
  rewrite !powerRZ_2. fold M00 M02 M22 M11_sin M11_cos M11_const. ring.
Qed.

Lemma M11_positive rho : 0 < M11 rho.
Proof.
  unfold M11.
  pose proof (M11_sin_pos K HK). pose proof (M11_cos_pos K HK).
  pose proof (M11_const_pos K HK).
  generalize (sin (theta_of rho)) (cos (theta_of rho)). intros s c. nra.
Qed.

Lemma minor_positive rho : 0 < minor rho.
Proof.
  unfold minor.
  pose proof (minor_pos K HK) as Hminor.
  pose proof (M02_pos K HK) as HB.
  pose proof (COS_bound (theta_of rho)) as [Hlo Hhi].
  assert (cos (theta_of rho) * cos (theta_of rho) <= 1) by nra.
  assert (0 < M02 * M02) by nra.
  nra.
Qed.

Lemma det_positive rho : 0 < eval rho (det M).
Proof.
  rewrite eval_det.
  apply Rmult_lt_0_compat; [apply M11_positive | apply minor_positive].
Qed.

Lemma det_nonzero rho : eval rho (det M) <> 0.
Proof. pose proof (det_positive rho). lra. Qed.

Lemma M_not_singular : ~ singular M.
Proof. intros Hsing. apply (det_nonzero (fun _ => 0)), Hsing. Qed.

Lemma M_quadratic_form rho x0 x1 x2 :
  x0 <> 0 \/ x1 <> 0 \/ x2 <> 0 ->
  0 < quadratic_form (meval rho M) [x0; x1; x2].
Proof.
  intros Hx.
  pose proof (quadratic_form_pos M00 (M02 * cos (theta_of rho)) M22
                (M11 rho) x0 x1 x2 (M00_pos K HK) (M11_positive rho)
                (minor_positive rho) Hx) as Hq.
  unfold quadratic_form, rdot, Cell4.M.
  cbn [meval map zip_with fold_right eval theta symbols].
  rewrite !powerRZ_2.
  fold M00 M02 M22 M11_sin M11_cos M11_const. fold (M11 rho).
  lra.
Qed.

(** *** The solution of the linear system *)

Lemma solution_rows :
  solution =
  [[entry solution 0 0]; [entry solution 1 0]; [entry solution 2 0]].
Proof. reflexivity. Qed.

Lemma rhs_rows : rhs = [[entry rhs 0 0]; [entry rhs 1 0]; [entry rhs 2 0]].
Proof. reflexivity. Qed.

Lemma solution_solves rho :
  meval rho (matmul M solution) = meval rho rhs.
Proof.
  exact (matmul_inv_column rho
           (entry M 0 0) (entry M 0 1) (entry M 0 2)
           (entry M 1 0) (entry M 1 1) (entry M 1 2)
           (entry M 2 0) (entry M 2 1) (entry M 2 2)
           (entry rhs 0 0) (entry rhs 1 0) (entry rhs 2 0)
           (det_nonzero rho)).
Qed.

Lemma wd_det rho : wd rho (det M).
Proof.
  unfold det, entry, Cell4.M. cbn [nth wd theta symbols].
  repeat split; no_negative_power.
Qed.

Lemma wd_rhs rho i : wd rho (entry rhs i 0).
Proof.
  destruct i as [|[|[|i]]];
    [| | | destruct i; exact I];
    unfold entry, Cell4.rhs, Cell4.N, Cell4.R, Cell4.tau;
    cbn [matadd matmul zip_with map dot column nth hd List.length seq wd];
    repeat split; no_negative_power.
Qed.

Lemma wd_solution rho i : wd rho (entry solution i 0).
Proof.
  pose proof (wd_det rho) as Hdet.
  pose proof (det_nonzero rho) as Hnz.
  pose proof (wd_rhs rho 0) as H0.
  pose proof (wd_rhs rho 1) as H1.
  pose proof (wd_rhs rho 2) as H2.
  destruct i as [|[|[|i]]];
    [| | | destruct i; exact I];
    unfold Cell4.solution; rewrite rhs_rows;
    unfold inv, entry at 1, Cell4.M;
    cbn [matmul map dot column nth hd List.length seq wd];
    repeat split; trivial; try no_negative_power.
Qed.

(** *** Closed forms *)

Ltac solution_entry rho :=
  pose proof (M11_positive rho);
  pose proof (minor_positive rho);
  unfold Cell4.solution; rewrite rhs_rows at 1;
  unfold inv;
  cbn [matmul map dot column nth hd List.length seq eval];
  unfold entry at 1; cbn [nth eval];
  rewrite !powerRZ_m1, eval_det;
  generalize (eval rho (entry rhs 0 0)) (eval rho (entry rhs 1 0))
             (eval rho (entry rhs 2 0));
  intros b0 b1 b2;
  unfold entry, Cell4.M; cbn [nth eval theta symbols];
  rewrite ?powerRZ_2;
  fold M00 M02 M22 M11_sin M11_cos M11_const; try fold (M11 rho);
  unfold minor in *; field; lra.

Lemma eval_solution_0 rho :
  eval rho (entry solution 0 0)
  = (M22 * eval rho (entry rhs 0 0)
     - M02 * cos (theta_of rho) * eval rho (entry rhs 2 0)) / minor rho.
Proof. solution_entry rho. Qed.

Lemma eval_solution_1 rho :
  eval rho (entry solution 1 0) = eval rho (entry rhs 1 0) / M11 rho.
Proof. solution_entry rho. Qed.

Lemma eval_solution_2 rho :
  eval rho (entry solution 2 0)
  = (M00 * eval rho (entry rhs 2 0)
     - M02 * cos (theta_of rho) * eval rho (entry rhs 0 0)) / minor rho.
Proof. solution_entry rho. Qed.

Lemma eval_rhs_0 rho :
  eval rho (entry rhs 0 0)
  = N0_coef * (rho "phidot"%string * rho "phidot"%string
               + rho "thetadot"%string * rho "thetadot"%string)
      * sin (theta_of rho)
    + R_top * (rho "tau_l"%string + rho "tau_r"%string).
Proof.
  unfold entry, Cell4.rhs, Cell4.N, Cell4.R, Cell4.tau.
  cbn [matadd matmul zip_with map dot column nth hd List.length seq eval
       theta phidot thetadot tau_l tau_r symbols].
  rewrite !powerRZ_2. fold N0_coef R_top. ring.
Qed.

Lemma eval_rhs_1 rho :
  eval rho (entry rhs 1 0)
  = N1_coef * cos (theta_of rho) * sin (theta_of rho)
      * rho "phidot"%string * rho "thetadot"%string
    - M02 * sin (theta_of rho) * rho "v"%string * rho "phidot"%string
    + (R_left * rho "tau_l"%string + R_right * rho "tau_r"%string).
Proof.
  unfold entry, Cell4.rhs, Cell4.N, Cell4.R, Cell4.tau.
  cbn [matadd matmul zip_with map dot column nth hd List.length seq eval
       theta phidot thetadot v tau_l tau_r symbols].
  fold N1_coef M02 R_left R_right. ring.
Qed.

Lemma eval_rhs_2 rho :
  eval rho (entry rhs 2 0)
  = N2_coef * cos (theta_of rho) * sin (theta_of rho)
      * (rho "phidot"%string * rho "phidot"%string)
    + gravity_coef * sin (theta_of rho)
    - (rho "tau_l"%string + rho "tau_r"%string).
Proof.
  unfold entry, Cell4.rhs, Cell4.N, Cell4.R, Cell4.tau.
  cbn [matadd matmul zip_with map dot column nth hd List.length seq eval
       theta phidot thetadot tau_l tau_r symbols].
  rewrite !powerRZ_2. fold N2_coef gravity_coef. ring.
Qed.

(** *** The entries of [f] *)

Variable simplify : expr -> expr.
Hypothesis Hs : simplifier simplify.

Abbreviation f := (@Cell4.f K symbols simplify).

Lemma f_rows :
  f = [[simplify (v * sympy.sin phi)%E];
       [simplify (simplify (entry solution 0 0))];
       [simplify (simplify (entry solution 1 0))];
       [simplify (simplify (entry solution 2 0))]].
Proof. reflexivity. Qed.

Lemma eval_f_head rho :
  eval rho (entry f 0 0) = rho "v"%string * sin (rho "phi"%string).
Proof.
  rewrite f_rows. unfold entry. cbn [nth].
  rewrite (simplify_eval _ Hs); [reflexivity | cbn; auto].
Qed.

Lemma eval_simplified rho i :
  eval rho (simplify (simplify (entry solution i 0)))
  = eval rho (entry solution i 0).
Proof.
  pose proof (wd_solution rho i) as Hwd.
  rewrite (simplify_eval _ Hs), (simplify_eval _ Hs); trivial.
  now apply (simplify_wd _ Hs).
Qed.

Lemma eval_f_tail rho i :
  eval rho (entry f (S i) 0) = eval rho (entry solution i 0).
Proof.
  rewrite f_rows.
  destruct i as [|[|[|i]]];
    [| | | destruct i; reflexivity];
    unfold entry at 1; cbn [nth]; apply eval_simplified.
Qed.

Lemma linear_system rho :
  meval rho (matmul M (tl f)) = meval rho rhs.
Proof.
  rewrite <- solution_solves. rewrite f_rows, solution_rows.
  unfold Cell4.M.
  cbn [tl meval map matmul dot column nth hd List.length seq eval].
  now rewrite !eval_simplified.
Qed.

Lemma eval_f_1 rho :
  eval rho (entry f 1 0)
  = (M22 * eval rho (entry rhs 0 0)
     - M02 * cos (theta_of rho) * eval rho (entry rhs 2 0)) / minor rho.
Proof. rewrite eval_f_tail. apply eval_solution_0. Qed.

Lemma eval_f_2 rho :
  eval rho (entry f 2 0) = eval rho (entry rhs 1 0) / M11 rho.
Proof. rewrite eval_f_tail. apply eval_solution_1. Qed.

Lemma eval_f_3 rho :
  eval rho (entry f 3 0)
  = (M00 * eval rho (entry rhs 2 0)
     - M02 * cos (theta_of rho) * eval rho (entry rhs 0 0)) / minor rho.
Proof. rewrite eval_f_tail. apply eval_solution_2. Qed.

(** *** The torques *)

Lemma M11_torques rho tl tr : M11 (with_torques rho tl tr) = M11 rho.
Proof. reflexivity. Qed.

Lemma minor_torques rho tl tr : minor (with_torques rho tl tr) = minor rho.
Proof. reflexivity. Qed.

Lemma rhs_0_torques rho tl tr :
  eval (with_torques rho tl tr) (entry rhs 0 0)
  = eval (with_torques rho 0 0) (entry rhs 0 0) + R_top * (tl + tr).
Proof. rewrite !eval_rhs_0. lookup. ring. Qed.

Lemma rhs_1_torques rho tl tr :
  eval (with_torques rho tl tr) (entry rhs 1 0)
  = eval (with_torques rho 0 0) (entry rhs 1 0) + R_right * (tr - tl).
Proof.
  rewrite !eval_rhs_1. lookup. rewrite (R_antisymmetric K HK). ring.
Qed.

Lemma rhs_2_torques rho tl tr :
  eval (with_torques rho tl tr) (entry rhs 2 0)
  = eval (with_torques rho 0 0) (entry rhs 2 0) - (tl + tr).
Proof. rewrite !eval_rhs_2. lookup. ring. Qed.

(** Forward acceleration: affine in the sum of the torques. *)
Lemma f_1_torques rho tl tr :
  eval (with_torques rho tl tr) (entry f 1 0)
  = eval (with_torques rho 0 0) (entry f 1 0)
    + (M22 * R_top + M02 * cos (theta_of rho)) / minor rho * (tl + tr).
Proof.
  pose proof (minor_positive rho).
  rewrite !eval_f_1, !minor_torques, rhs_0_torques, rhs_2_torques.
  change (theta_of (with_torques rho tl tr)) with (theta_of rho).
  change (theta_of (with_torques rho 0 0)) with (theta_of rho).
  field. lra.
Qed.

(** Yaw acceleration: affine in the difference of the torques. *)
Lemma f_2_torques rho tl tr :
  eval (with_torques rho tl tr) (entry f 2 0)
  = eval (with_torques rho 0 0) (entry f 2 0)
    + R_right / M11 rho * (tr - tl).
Proof.
  pose proof (M11_positive rho).
  rewrite !eval_f_2, !M11_torques, rhs_1_torques. field. lra.
Qed.

(** Pitch acceleration: affine in the sum of the torques. *)
Lemma f_3_torques rho tl tr :
  eval (with_torques rho tl tr) (entry f 3 0)
  = eval (with_torques rho 0 0) (entry f 3 0)
    - (M00 + M02 * cos (theta_of rho) * R_top) / minor rho * (tl + tr).
Proof.
  pose proof (minor_positive rho).
  rewrite !eval_f_3, !minor_torques, rhs_0_torques, rhs_2_torques.
  change (theta_of (with_torques rho tl tr)) with (theta_of rho).
  change (theta_of (with_torques rho 0 0)) with (theta_of rho).
  field. lra.
Qed.

Lemma f_0_free_symbols x :
  In x (free_symbols (entry f 0 0)) -> x = "v"%string \/ x = "phi"%string.
Proof.
  rewrite f_rows. unfold entry. cbn [nth]. intros Hin.
  apply (simplify_free_symbols _ Hs) in Hin.
  destruct Hin as [<- | [<- | []]]; auto.
Qed.

Lemma f_0_torques rho tl tr :
  eval (with_torques rho tl tr) (entry f 0 0) = eval rho (entry f 0 0).
Proof. now rewrite !eval_f_head. Qed.

(** *** Upright rest *)

Lemma rest_rhs rho i :
  theta_of rho = 0 -> rho "phidot"%string = 0 ->
  rho "thetadot"%string = 0 ->
  rho "tau_l"%string = 0 -> rho "tau_r"%string = 0 ->
  (i < 3)%nat -> eval rho (entry rhs i 0) = 0.
Proof.
  intros Hth Hpd Htd Htl Htr Hi.
  destruct i as [|[|[|i]]]; [| | | exfalso; revert Hi; clear; lia].
  - rewrite eval_rhs_0, Hth, Hpd, Htd, Htl, Htr, sin_0. ring.
  - rewrite eval_rhs_1, Hth, Hpd, Htd, Htl, Htr, sin_0. ring.
  - rewrite eval_rhs_2, Hth, Hpd, Htl, Htr, sin_0. ring.
Qed.

(** *** Free symbols *)

Lemma solution_free_symbols i x :
  In x (free_symbols (entry solution i 0)) -> In x arguments.
Proof.
  apply all_among_sound.
  destruct i as [|[|[|i]]]; [| | | destruct i]; vm_compute; reflexivity.
Qed.

Lemma f_free_symbols x :
  In x (matrix_free_symbols f) -> In x arguments.
Proof.
  rewrite f_rows. unfold matrix_free_symbols. cbn [flat_map].
  rewrite !app_nil_r, !in_app_iff.
  intros [H0 | [H1 | [H2 | H3]]].
  - apply (simplify_free_symbols _ Hs) in H0.
    destruct H0 as [<- | [<- | []]]; cbn; auto.
  - do 2 apply (simplify_free_symbols _ Hs) in H1.
    now apply solution_free_symbols in H1.
  - do 2 apply (simplify_free_symbols _ Hs) in H2.
    now apply solution_free_symbols in H2.
  - do 2 apply (simplify_free_symbols _ Hs) in H3.
    now apply solution_free_symbols in H3.
Qed.

Lemma entry_free_symbols i x :
  In x (free_symbols (entry f i 0)) -> In x (matrix_free_symbols f).
Proof.
  rewrite f_rows. unfold matrix_free_symbols, entry.
  cbn [flat_map]. rewrite !app_nil_r, !in_app_iff.
  destruct i as [|[|[|[|i]]]]; cbn [nth]; auto.
  destruct i; cbn; tauto.
Qed.

(** Each argument occurs: the value of some entry depends on it. *)

Ltac at_point :=
  unfold M11, minor; lookup; unfold origin;
  rewrite ?sin_0, ?cos_0, ?sin_PI2, ?cos_PI2.

Lemma occurs_v : In "v"%string (matrix_free_symbols f).
Proof.
  apply (entry_free_symbols 0).
  apply (depends_occurs (upd origin "phi" (PI / 2)) _ 1).
  rewrite !eval_f_head. at_point. lra.
Qed.

Lemma occurs_phi : In "phi"%string (matrix_free_symbols f).
Proof.
  apply (entry_free_symbols 0).
  apply (depends_occurs (upd origin "v" 1) _ (PI / 2)).
  rewrite !eval_f_head. at_point. lra.
Qed.

Lemma occurs_tau_l : In "tau_l"%string (matrix_free_symbols f).
Proof.
  apply (entry_free_symbols 2).
  apply (depends_occurs origin _ 1).
  pose proof (M11_positive origin) as H11.
  pose proof (R_right_pos K HK) as HR.
  rewrite !eval_f_2, !eval_rhs_1.
  change (M11 (upd origin "tau_l" 1)) with (M11 origin).
  apply quotient_neq; trivial.
  lookup. unfold origin. rewrite (R_antisymmetric K HK). lra.
Qed.

Lemma occurs_tau_r : In "tau_r"%string (matrix_free_symbols f).
Proof.
  apply (entry_free_symbols 2).
  apply (depends_occurs origin _ 1).
  pose proof (M11_positive origin) as H11.
  pose proof (R_right_pos K HK) as HR.
  rewrite !eval_f_2, !eval_rhs_1.
  change (M11 (upd origin "tau_r" 1)) with (M11 origin).
  apply quotient_neq; trivial.
  lookup. unfold origin. lra.
Qed.

Lemma occurs_phidot : In "phidot"%string (matrix_free_symbols f).
Proof.
  apply (entry_free_symbols 2).
  apply (depends_occurs (upd (upd origin "theta" (PI / 2)) "v" 1) _ 1).
  pose proof (M11_positive (upd origin "theta" (PI / 2))) as H11.
  pose proof (M02_pos K HK) as H02.
  rewrite !eval_f_2, !eval_rhs_1.
  change (M11 (upd (upd (upd origin "theta" (PI / 2)) "v" 1) "phidot" 1))
    with (M11 (upd origin "theta" (PI / 2))).
  change (M11 (upd (upd origin "theta" (PI / 2)) "v" 1))
    with (M11 (upd origin "theta" (PI / 2))).
  apply quotient_neq; trivial.
  at_point. lra.
Qed.

Lemma occurs_thetadot : In "thetadot"%string (matrix_free_symbols f).
Proof.
  apply (entry_free_symbols 1).
  apply (depends_occurs (upd origin "theta" (PI / 2)) _ 1).
  pose proof (minor_positive (upd origin "theta" (PI / 2))) as Hminor.
  pose proof (M02_pos K HK) as H02.
  pose proof (M22_pos K HK) as H22.
  rewrite !eval_f_1, !eval_rhs_0, !eval_rhs_2.
  change (minor (upd (upd origin "theta" (PI / 2)) "thetadot" 1))
    with (minor (upd origin "theta" (PI / 2))).
  apply quotient_neq; trivial.
  at_point. unfold N0_coef. fold M02. nra.
Qed.

Lemma occurs_theta : In "theta"%string (matrix_free_symbols f).
Proof.
  apply (entry_free_symbols 2).
  apply (depends_occurs (upd origin "tau_r" 1) _ (PI / 2)).
  pose proof (M11_positive (upd origin "theta" (PI / 2))) as H1.
  pose proof (M11_positive origin) as H0.
  pose proof (R_right_pos K HK) as HR.
  pose proof (M11_sin_cos K HK) as Hsc.
  rewrite !eval_f_2, !eval_rhs_1.
  change (M11 (upd (upd origin "tau_r" 1) "theta" (PI / 2)))
    with (M11 (upd origin "theta" (PI / 2))).
  change (M11 (upd origin "tau_r" 1)) with (M11 origin).
  revert H1 H0. at_point. intros H1 H0.
  replace (N1_coef * 0 * 1 * 0 * 0 - M02 * 1 * 0 * 0
           + (R_left * 0 + R_right * 1)) with R_right by ring.
  replace (N1_coef * 1 * 0 * 0 * 0 - M02 * 0 * 0 * 0
           + (R_left * 0 + R_right * 1)) with R_right by ring.
  apply quotient_neq_denominator; lra.
Qed.

Lemma f_arguments x :
  In x (matrix_free_symbols f) <-> In x arguments.
Proof.
  split; [apply f_free_symbols |].
  intros [<- | [<- | [<- | [<- | [<- | [<- | [<- | []]]]]]]].
  - apply occurs_v.
  - apply occurs_phi.
  - apply occurs_phidot.
  - apply occurs_theta.
  - apply occurs_thetadot.
  - apply occurs_tau_l.
  - apply occurs_tau_r.
Qed.

Lemma e_lat_absent : ~ In "e_lat"%string (matrix_free_symbols f).
Proof.
  intros Hin. apply f_arguments in Hin. revert Hin. clear.
  intros [H | [H | [H | [H | [H | [H | [H | []]]]]]]]; discriminate H.
Qed.

End Generic.

End Derivation.

(** ** Running the notebook *)

Section Run.
Variable simplify : expr -> expr.
Variable N_sympy : Matrix -> Z -> Matrix.

Abbreviation step := (Kernel.step simplify N_sympy).
Abbreviation run := (Kernel.run simplify N_sympy).
Abbreviation final := (Kernel.final simplify N_sympy).

Lemma step_deterministic c s s1 s2 : step c s s1 -> step c s s2 -> s1 = s2.
Proof.
  intros H1 H2.
  destruct H1; inversion H2; subst; trivial; congruence.
Qed.

Lemma run_deterministic cs s s1 s2 : run cs s s1 -> run cs s s2 -> s1 = s2.
Proof.
  intros H1. revert s2.
  induction H1 as [s | c cs s s' s'' Hstep Hrun IH]; intros s2 H2.
  - now inversion H2.
  - inversion H2 as [| c' cs' t t' t'' Hstep' Hrun']; subst.
    rewrite (step_deterministic _ _ _ _ Hstep' Hstep) in Hrun'.
    now apply IH.
Qed.

(** Run All on a fresh kernel runs every cell. *)
Lemma run_final : run Kernel.notebook Kernel.fresh final.
Proof.
  unfold Kernel.notebook, Kernel.final.
  eapply Kernel.run_cell; [apply Kernel.step_imports |].
  eapply Kernel.run_cell; [apply Kernel.step_constants |].
  eapply Kernel.run_cell; [apply Kernel.step_symbols; reflexivity |].
  eapply Kernel.run_cell.
  { eapply Kernel.step_derive; [reflexivity | reflexivity | reflexivity |].
    apply Derivation.M_not_singular, constants_conditioned. }
  eapply Kernel.run_cell; [eapply Kernel.step_display; reflexivity |].
  apply Kernel.run_done.
Qed.

(** Run All displays one result, the value of the last cell. *)
Lemma run_output s :
  run Kernel.notebook Kernel.fresh s ->
  Kernel.Out s = [N_sympy (f_of simplify) 3].
Proof.
  intros Hrun. now rewrite (run_deterministic _ _ _ _ Hrun run_final).
Qed.

End Run.

(** ** The claims *)

Import Coefficients (M00, M02, M22).

(** C2, amended: the symbols that occur in [f] are exactly [v], [phi],
    [phidot], [theta], [thetadot], [tau_l] and [tau_r]; [e_lat] does not
    occur. *)
Theorem f_free_symbols_exact
  (simplify : expr -> expr) (Hs : simplifier simplify) :
  (forall x,
     In x (matrix_free_symbols (f_of simplify))
     <-> In x [ "v"; "phi"; "phidot"; "theta"; "thetadot";
                "tau_l"; "tau_r" ]%string)
  /\ ~ In "e_lat"%string (matrix_free_symbols (f_of simplify)).
Proof.
  split.
  - now apply (Derivation.f_arguments constants_conditioned).
  - now apply (Derivation.e_lat_absent constants_conditioned).
Qed.

Lemma f_free_symbols_exact_witness :
  simplifier (fun e => e)
  /\ ~ In "e_lat"%string (matrix_free_symbols (f_of (fun e => e))).
Proof.
  split; [exact simplifier_id |].
  exact (proj2 (f_free_symbols_exact _ simplifier_id)).
Defined.

(** C2 as stated fails: not all eight declared symbols occur in [f],
    whatever the simplifier. *)
Lemma e_lat_does_not_occur :
  ~ exists simplify,
      simplifier simplify
      /\ forall x,
           In x [ "e_lat"; "v"; "phi"; "phidot"; "theta"; "thetadot";
                  "tau_l"; "tau_r" ]%string
           -> In x (matrix_free_symbols (f_of simplify)).
Proof.
  intros (simplify & Hs & Hall).
  apply (Derivation.e_lat_absent constants_conditioned simplify Hs), Hall.
  now left.
Qed.

(** C3: the determinant of [M] vanishes for no value of theta, and neither
    does [(m + 2*iaa_w/r_w**2)*(iyy*m_c*h**2) - (m_c*h*cos(theta))**2]; so
    [M] is not singular, the inversion does not raise, and Run All on a
    fresh kernel runs every cell. *)
Theorem inversion_never_fails :
  (forall rho, eval rho (det M) <> 0)
  /\ (forall theta : R, M00 * M22 - (M02 * cos theta) ^ 2 <> 0)
  /\ ~ singular M
  /\ (forall simplify N_sympy,
        exists s, Kernel.run simplify N_sympy Kernel.notebook Kernel.fresh s).
Proof.
  split; [| split; [| split]].
  - apply Derivation.det_nonzero, constants_conditioned.
  - intros theta.
    pose proof (Derivation.minor_positive constants_conditioned
                  (upd (fun _ => 0) "theta" theta)) as Hminor.
    unfold Coefficients.minor in Hminor. revert Hminor. lookup. lra.
  - apply Derivation.M_not_singular, constants_conditioned.
  - intros simplify N_sympy. eexists. apply run_final.
Qed.

(** C4: [M] equals its transpose, and for every value of theta its entries
    [M[0,0]] and [M[1,1]] and its determinant are positive, and so is its
    quadratic form at every vector other than zero. *)
Theorem M_symmetric_positive_definite :
  transpose M = M
  /\ forall rho,
       0 < eval rho (entry M 0 0)
       /\ 0 < eval rho (entry M 1 1)
       /\ 0 < eval rho (det M)
       /\ (forall x0 x1 x2 : R,
             x0 <> 0 \/ x1 <> 0 \/ x2 <> 0 ->
             0 < quadratic_form (meval rho M) [x0; x1; x2]).
Proof.
  split; [reflexivity |]. intros rho. repeat split.
  - rewrite Derivation.eval_M00.
    apply (Coefficients.M00_pos _ constants_conditioned).
  - rewrite Derivation.eval_M11.
    apply Derivation.M11_positive, constants_conditioned.
  - apply Derivation.det_positive, constants_conditioned.
  - intros x0 x1 x2. apply Derivation.M_quadratic_form, constants_conditioned.
Qed.

Lemma M_symmetric_positive_definite_witness :
  0 < quadratic_form (meval (fun _ => 0) M) [1; 0; 0].
Proof.
  apply (proj2 M_symmetric_positive_definite (fun _ => 0)).
  left. lra.
Defined.

(** C5: every entry of [f] is affine in the pair of torques; no torque
    occurs in the first entry; the second and fourth entries take the same
    value at two pairs of torques with the same sum, in particular when the
    torques are swapped; the third entry takes the same value at two pairs
    with the same difference [tau_r - tau_l]. *)
Theorem f_torque_dependence
  (simplify : expr -> expr) (Hs : simplifier simplify) :
  (forall rho i,
     exists c0 cl cr : R,
       forall tl tr,
         eval (with_torques rho tl tr) (entry (f_of simplify) i 0)
         = c0 + cl * tl + cr * tr)
  /\ (~ In "tau_l"%string (free_symbols (entry (f_of simplify) 0 0))
      /\ ~ In "tau_r"%string (free_symbols (entry (f_of simplify) 0 0)))
  /\ (forall rho tl tr tl' tr',
        tl + tr = tl' + tr' ->
        eval (with_torques rho tl tr) (entry (f_of simplify) 1 0)
        = eval (with_torques rho tl' tr') (entry (f_of simplify) 1 0)
        /\ eval (with_torques rho tl tr) (entry (f_of simplify) 3 0)
           = eval (with_torques rho tl' tr') (entry (f_of simplify) 3 0))
  /\ (forall rho tl tr,
        eval (with_torques rho tl tr) (entry (f_of simplify) 1 0)
        = eval (with_torques rho tr tl) (entry (f_of simplify) 1 0)
        /\ eval (with_torques rho tl tr) (entry (f_of simplify) 3 0)
           = eval (with_torques rho tr tl) (entry (f_of simplify) 3 0))
  /\ (forall rho tl tr tl' tr',
        tr - tl = tr' - tl' ->
        eval (with_torques rho tl tr) (entry (f_of simplify) 2 0)
        = eval (with_torques rho tl' tr') (entry (f_of simplify) 2 0)).
Proof.
  pose proof (Derivation.f_1_torques constants_conditioned simplify Hs) as H1.
  pose proof (Derivation.f_2_torques constants_conditioned simplify Hs) as H2.
  pose proof (Derivation.f_3_torques constants_conditioned simplify Hs) as H3.
  split; [| split; [| split; [| split]]].
  - intros rho i. destruct i as [|[|[|[|i]]]].
    + exists (eval rho (entry (f_of simplify) 0 0)), 0, 0. intros tl tr.
      rewrite (Derivation.f_0_torques simplify Hs). ring.
    + exists (eval (with_torques rho 0 0) (entry (f_of simplify) 1 0)),
        ((M22 * Coefficients.R_top + M02 * cos (rho "theta"%string))
         / Coefficients.minor rho),
        ((M22 * Coefficients.R_top + M02 * cos (rho "theta"%string))
         / Coefficients.minor rho).
      intros tl tr. rewrite H1. ring.
    + exists (eval (with_torques rho 0 0) (entry (f_of simplify) 2 0)),
        (- (Coefficients.R_right / Coefficients.M11 rho)),
        (Coefficients.R_right / Coefficients.M11 rho).
      intros tl tr. rewrite H2. ring.
    + exists (eval (with_torques rho 0 0) (entry (f_of simplify) 3 0)),
        (- ((M00 + M02 * cos (rho "theta"%string) * Coefficients.R_top)
            / Coefficients.minor rho)),
        (- ((M00 + M02 * cos (rho "theta"%string) * Coefficients.R_top)
            / Coefficients.minor rho)).
      intros tl tr. rewrite H3. ring.
    + exists 0, 0, 0. intros tl tr.
      destruct i; cbn; ring.
  - split; intros Hin;
      apply (Derivation.f_0_free_symbols simplify Hs) in Hin;
      destruct Hin as [H | H]; discriminate H.
  - intros rho tl tr tl' tr' Hsum.
    now rewrite (H1 rho tl tr), (H1 rho tl' tr'),
                (H3 rho tl tr), (H3 rho tl' tr'), Hsum.
  - intros rho tl tr.
    now rewrite (H1 rho tl tr), (H1 rho tr tl),
                (H3 rho tl tr), (H3 rho tr tl), (Rplus_comm tr tl).
  - intros rho tl tr tl' tr' Hdiff.
    now rewrite (H2 rho tl tr), (H2 rho tl' tr'), Hdiff.
Qed.

Lemma f_torque_dependence_witness :
  simplifier (fun e => e)
  /\ (1 + 2 = 3 + 0
      /\ eval (with_torques (fun _ => 0) 1 2) (entry (f_of (fun e => e)) 1 0)
         = eval (with_torques (fun _ => 0) 3 0)
                (entry (f_of (fun e => e)) 1 0)).
Proof.
  split; [exact simplifier_id |].
  assert (Hsum : 1 + 2 = 3 + 0) by lra.
  split; [exact Hsum |].
  exact (proj1 (proj1 (proj2 (proj2 (f_torque_dependence _ simplifier_id)))
                  (fun _ => 0) 1 2 3 0 Hsum)).
Defined.

(** C6: with [theta], [phidot], [thetadot], [tau_l] and [tau_r] all zero,
    the last three entries of [f] are zero and the first is [v * sin(phi)],
    whatever the values of [v] and [phi]. *)
Theorem upright_rest_is_equilibrium
  (simplify : expr -> expr) (Hs : simplifier simplify) (rho : env) :
  rho "theta"%string = 0 ->
  rho "phidot"%string = 0 ->
  rho "thetadot"%string = 0 ->
  rho "tau_l"%string = 0 ->
  rho "tau_r"%string = 0 ->
  eval rho (entry (f_of simplify) 0 0)
  = rho "v"%string * sin (rho "phi"%string)
  /\ eval rho (entry (f_of simplify) 1 0) = 0
  /\ eval rho (entry (f_of simplify) 2 0) = 0
  /\ eval rho (entry (f_of simplify) 3 0) = 0.
Proof.
  intros Hth Hpd Htd Htl Htr.
  assert (Hrhs : forall i, (i < 3)%nat ->
                           eval rho (entry Cell4.rhs i 0) = 0)
    by (intros i Hi; now apply Derivation.rest_rhs).
  split; [now apply Derivation.eval_f_head |].
  rewrite (Derivation.eval_f_1 constants_conditioned simplify Hs),
          (Derivation.eval_f_2 constants_conditioned simplify Hs),
          (Derivation.eval_f_3 constants_conditioned simplify Hs).
  rewrite (Hrhs 0%nat), (Hrhs 1%nat), (Hrhs 2%nat) by lia.
  unfold Rdiv. repeat split; ring.
Qed.

Lemma upright_rest_is_equilibrium_witness :
  let rho := upd (upd (fun _ => 0) "v" 3) "phi" 1 in
  eval rho (entry (f_of (fun e => e)) 1 0) = 0
  /\ eval rho (entry (f_of (fun e => e)) 2 0) = 0
  /\ eval rho (entry (f_of (fun e => e)) 3 0) = 0.
Proof.
  exact (proj2 (upright_rest_is_equilibrium
                  (fun e => e) simplifier_id
                  (upd (upd (fun _ => 0) "v" 3) "phi" 1)
                  eq_refl eq_refl eq_refl eq_refl eq_refl)).
Defined.

(** C7, amended: the station parameters do not influence the derivation.
    With any other values for [r_station] and [v_station] the matrices
    [M], [N], [R] and the final expression [f] are the same. *)
Theorem station_parameters_unused
  (r_station' v_station' : float) (simplify : expr -> expr) :
  let K' := Cell2.with_station Cell2.constants r_station' v_station' in
  @Cell4.M K' Cell3.symbols = M
  /\ @Cell4.N K' Cell3.symbols = N
  /\ @Cell4.R K' = @Cell4.R Cell2.constants
  /\ @Cell4.f K' Cell3.symbols simplify = f_of simplify.
Proof. repeat split. Qed.

(** C7 as stated fails: no other value of the station parameters gives
    another [f]. *)
Lemma station_parameters_change_nothing :
  ~ exists (r_station' v_station' : float) (simplify : expr -> expr),
      @Cell4.f (Cell2.with_station Cell2.constants r_station' v_station')
               Cell3.symbols simplify
      <> f_of simplify.
Proof.
  intros (r' & v' & simplify & Hdiff). apply Hdiff. reflexivity.
Qed.

(** C10: cell 3 binds eight names, [e_lat], [phi], [phidot], [v], [theta],
    [thetadot], then [tau_l], [tau_r]; each is bound to the symbol of that
    very name, the eight symbols are distinct, and every symbol of [M],
    [N], [R] and of the stacked blocks of [f] is one of them. *)
Theorem symbols_declared :
  map fst (Cell3.namespace Cell3.symbols)
  = [ "e_lat"; "phi"; "phidot"; "v"; "theta"; "thetadot";
      "tau_l"; "tau_r" ]%string
  /\ Forall (fun binding => snd binding = Symbol (fst binding))
            (Cell3.namespace Cell3.symbols)
  /\ NoDup (map snd (Cell3.namespace Cell3.symbols))
  /\ all_among (map fst (Cell3.namespace Cell3.symbols))
       (matrix_free_symbols M ++ matrix_free_symbols N
        ++ matrix_free_symbols Cell4.R
        ++ matrix_free_symbols
             (@Cell4.f_blocks Cell2.constants Cell3.symbols (fun e => e)))
     = true.
Proof.
  split; [reflexivity |]. split; [| split].
  - repeat constructor.
  - repeat (constructor; [cbn; intuition discriminate |]). constructor.
  - vm_compute. reflexivity.
Qed.

(** ** Further properties of the derivation *)

Import Coefficients Forces.

Lemma constants_actuated :
  0 < @gravity_coef Cell2.constants
  /\ 0 < @R_top Cell2.constants
  /\ @M02 Cell2.constants * @R_top Cell2.constants < @M00 Cell2.constants.
Proof.
  split; [| split].
  - apply B2R_pos. vm_compute. reflexivity.
  - apply B2R_pos. vm_compute. reflexivity.
  - unfold M00. rewrite <- (Rmult_1_r (B2R _)) at 1.
    replace 1 with (B2R 1) by (unfold B2R, Q2R; cbn; lra).
    apply B2R_mul_lt. vm_compute. reflexivity.
Qed.

Section Forms.
Variable simplify : expr -> expr.
Hypothesis Hs : simplifier simplify.
Variable rho : env.

Abbreviation f1 r := (eval r (entry (f_of simplify) 1 0)).
Abbreviation f2 r := (eval r (entry (f_of simplify) 2 0)).
Abbreviation f3 r := (eval r (entry (f_of simplify) 3 0)).

Lemma minor_gt_0 : 0 < minor rho.
Proof. apply Derivation.minor_positive, constants_conditioned. Qed.

Lemma M11_gt_0 : 0 < M11 rho.
Proof. apply Derivation.M11_positive, constants_conditioned. Qed.

Lemma vdot_form :
  f1 rho
  = (M22 * b0 rho - M02 * cos (rho "theta"%string) * b2 rho) / minor rho.
Proof.
  rewrite (Derivation.eval_f_1 constants_conditioned simplify Hs).
  now rewrite Derivation.eval_rhs_0, Derivation.eval_rhs_2.
Qed.

Lemma yaw_form : f2 rho = b1 rho / M11 rho.
Proof.
  rewrite (Derivation.eval_f_2 constants_conditioned simplify Hs).
  now rewrite Derivation.eval_rhs_1.
Qed.

Lemma pitch_form :
  f3 rho
  = (M00 * b2 rho - M02 * cos (rho "theta"%string) * b0 rho) / minor rho.
Proof.
  rewrite (Derivation.eval_f_3 constants_conditioned simplify Hs).
  now rewrite Derivation.eval_rhs_0, Derivation.eval_rhs_2.
Qed.

(** The accelerations vanish together exactly when the right-hand side
    does. *)
Lemma accelerations_zero_iff :
  f1 rho = 0 /\ f2 rho = 0 /\ f3 rho = 0
  <-> b0 rho = 0 /\ b1 rho = 0 /\ b2 rho = 0.
Proof.
  pose proof minor_gt_0 as Hminor. pose proof M11_gt_0 as H11.
  pose proof (M00_pos _ constants_conditioned) as HA.
  rewrite vdot_form, yaw_form, pitch_form.
  split.
  - intros (E1 & E2 & E3).
    apply Rmult_integral in E1 as [E1 | E1];
      [| exfalso; apply (Rinv_neq_0_compat (minor rho)); lra].
    apply Rmult_integral in E2 as [E2 | E2];
      [| exfalso; apply (Rinv_neq_0_compat (M11 rho)); lra].
    apply Rmult_integral in E3 as [E3 | E3];
      [| exfalso; apply (Rinv_neq_0_compat (minor rho)); lra].
    assert (Hb0 : minor rho * b0 rho = 0).
    { unfold minor.
      replace ((M00 * M22
                - M02 * cos (rho "theta"%string)
                  * (M02 * cos (rho "theta"%string))) * b0 rho)
        with (M00 * (M22 * b0 rho
                     - M02 * cos (rho "theta"%string) * b2 rho)
              + M02 * cos (rho "theta"%string)
                * (M00 * b2 rho
                   - M02 * cos (rho "theta"%string) * b0 rho)) by ring.
      rewrite E1, E3. ring. }
    apply Rmult_integral in Hb0 as [Hb0 | Hb0]; [lra |].
    rewrite Hb0 in E3.
    assert (Hb2 : M00 * b2 rho = 0) by lra.
    apply Rmult_integral in Hb2 as [Hb2 | Hb2]; [lra |]. auto.
  - intros (E0 & E1 & E2). rewrite E0, E1, E2. unfold Rdiv.
    repeat split; ring.
Qed.

End Forms.

(** X1: no entry of [f] divides by an expression that vanishes, for any
    values of the symbols. *)
Theorem f_never_divides_by_zero
  (simplify : expr -> expr) (Hs : simplifier simplify) (rho : env)
  (i j : nat) :
  wd rho (entry (f_of simplify) i j).
Proof.
  rewrite (Derivation.f_rows simplify).
  pose proof (Derivation.wd_solution constants_conditioned rho) as Hwd.
  destruct i as [|[|[|[|i]]]]; destruct j as [|j]; unfold entry; cbn [nth];
    try (destruct j; exact I);
    try (destruct i; try destruct j; exact I).
  - apply (simplify_wd _ Hs). cbn. auto.
  - do 2 apply (simplify_wd _ Hs). apply (Hwd 0%nat).
  - do 2 apply (simplify_wd _ Hs). apply (Hwd 1%nat).
  - do 2 apply (simplify_wd _ Hs). apply (Hwd 2%nat).
Qed.

Lemma f_never_divides_by_zero_witness :
  simplifier (fun e => e) /\ wd origin (entry (f_of (fun e => e)) 3 0).
Proof.
  split; [exact simplifier_id |].
  exact (f_never_divides_by_zero _ simplifier_id origin 3 0).
Defined.



(** X3: with both rates zero, the three accelerations are all zero exactly
    when [sin(theta)] is zero and both torques are zero. *)
Theorem equilibria_at_rest
  (simplify : expr -> expr) (Hs : simplifier simplify) (rho : env) :
  rho "phidot"%string = 0 ->
  rho "thetadot"%string = 0 ->
  (eval rho (entry (f_of simplify) 1 0) = 0
   /\ eval rho (entry (f_of simplify) 2 0) = 0
   /\ eval rho (entry (f_of simplify) 3 0) = 0)
  <-> (sin (rho "theta"%string) = 0
       /\ rho "tau_l"%string = 0 /\ rho "tau_r"%string = 0).
Proof.
  intros Hpd Htd.
  destruct constants_actuated as (Hg & Htop & _).
  pose proof (R_right_pos _ constants_conditioned) as Hright.
  rewrite (accelerations_zero_iff simplify Hs rho).
  unfold b0, b1, b2.
  rewrite Hpd, Htd, (R_antisymmetric _ constants_conditioned).
  generalize (sin (rho "theta"%string)) (cos (rho "theta"%string))
             (rho "tau_l"%string) (rho "tau_r"%string) (rho "v"%string).
  intros s c tl tr v. split.
  - intros (E0 & E1 & E2).
    assert (Hsum : R_top * (tl + tr) = 0) by lra.
    assert (Hdiff : R_right * (tr - tl) = 0) by lra.
    apply Rmult_integral in Hsum as [Hsum | Hsum]; [lra |].
    apply Rmult_integral in Hdiff as [Hdiff | Hdiff]; [lra |].
    assert (Hs0 : gravity_coef * s = 0) by (rewrite Hsum in E2; lra).
    apply Rmult_integral in Hs0 as [Hs0 | Hs0]; [lra |].
    repeat split; lra.
  - intros (-> & -> & ->). repeat split; ring.
Qed.

Lemma equilibria_at_rest_witness :
  simplifier (fun e => e)
  /\ ~ (eval (upd origin "tau_r" 1) (entry (f_of (fun e => e)) 1 0) = 0
        /\ eval (upd origin "tau_r" 1) (entry (f_of (fun e => e)) 2 0) = 0
        /\ eval (upd origin "tau_r" 1) (entry (f_of (fun e => e)) 3 0) = 0).
Proof.
  split; [exact simplifier_id |].
  intros Hzero.
  apply (equilibria_at_rest _ simplifier_id (upd origin "tau_r" 1)
           eq_refl eq_refl) in Hzero.
  destruct Hzero as (_ & _ & Htr). revert Htr. lookup. lra.
Defined.

(** X4: at rest and without torque, the pitch acceleration has the sign of
    [sin(theta)], and the forward acceleration the opposite sign while the
    chassis is above the axle: a tipped chassis tips further. *)
Theorem gravity_tips_further
  (simplify : expr -> expr) (Hs : simplifier simplify) (rho : env) :
  rho "phidot"%string = 0 ->
  rho "thetadot"%string = 0 ->
  rho "tau_l"%string = 0 ->
  rho "tau_r"%string = 0 ->
  (0 < sin (rho "theta"%string) ->
   0 < eval rho (entry (f_of simplify) 3 0))
  /\ (sin (rho "theta"%string) < 0 ->
      eval rho (entry (f_of simplify) 3 0) < 0)
  /\ (0 < sin (rho "theta"%string) -> 0 < cos (rho "theta"%string) ->
      eval rho (entry (f_of simplify) 1 0) < 0).
Proof.
  intros Hpd Htd Htl Htr.
  destruct constants_actuated as (Hg & _ & _).
  pose proof (M00_pos _ constants_conditioned) as HA.
  pose proof (M02_pos _ constants_conditioned) as HB.
  pose proof (minor_gt_0 rho) as Hminor.
  assert (Hinv : 0 < / minor rho) by now apply Rinv_0_lt_compat.
  rewrite (vdot_form simplify Hs), (pitch_form simplify Hs).
  unfold b0, b2. rewrite Hpd, Htd, Htl, Htr.
  generalize dependent (minor rho).
  generalize (sin (rho "theta"%string)) (cos (rho "theta"%string)).
  intros s c d Hd Hinv.
  assert (HAg : 0 < M00 * gravity_coef) by now apply Rmult_lt_0_compat.
  assert (HBg : 0 < M02 * gravity_coef) by now apply Rmult_lt_0_compat.
  split; [| split].
  - intros Hs0.
    replace ((M00 * (N2_coef * c * s * (0 * 0) + gravity_coef * s - (0 + 0))
              - M02 * c * (N0_coef * (0 * 0 + 0 * 0) * s + R_top * (0 + 0)))
             / d)
      with (M00 * gravity_coef * s * / d) by (unfold Rdiv; ring).
    apply Rmult_lt_0_compat; [apply Rmult_lt_0_compat |]; assumption.
  - intros Hs0.
    replace ((M00 * (N2_coef * c * s * (0 * 0) + gravity_coef * s - (0 + 0))
              - M02 * c * (N0_coef * (0 * 0 + 0 * 0) * s + R_top * (0 + 0)))
             / d)
      with (- (M00 * gravity_coef * (- s) * / d)) by (unfold Rdiv; ring).
    assert (0 < M00 * gravity_coef * (- s) * / d)
      by (apply Rmult_lt_0_compat; [apply Rmult_lt_0_compat |]; lra).
    lra.
  - intros Hs0 Hc0.
    replace ((M22 * (N0_coef * (0 * 0 + 0 * 0) * s + R_top * (0 + 0))
              - M02 * c
                * (N2_coef * c * s * (0 * 0) + gravity_coef * s - (0 + 0)))
             / d)
      with (- (M02 * gravity_coef * (c * s) * / d)) by (unfold Rdiv; ring).
    assert (0 < c * s) by now apply Rmult_lt_0_compat.
    assert (0 < M02 * gravity_coef * (c * s) * / d)
      by (apply Rmult_lt_0_compat; [apply Rmult_lt_0_compat |]; lra).
    lra.
Qed.

Lemma gravity_tips_further_witness :
  0 < eval (upd origin "theta" (PI / 2)) (entry (f_of (fun e => e)) 3 0).
Proof.
  refine (proj1 (gravity_tips_further
                   _ simplifier_id (upd origin "theta" (PI / 2))
                   eq_refl eq_refl eq_refl eq_refl) _).
  lookup. rewrite sin_PI2. lra.
Defined.

Section Gains.
Variable rho : env.

(** The gains of the torques on the yaw and pitch accelerations are
    positive for every theta. *)
Lemma yaw_gain_positive : 0 < R_right / M11 rho.
Proof.
  apply Rdiv_lt_0_compat;
    [apply (R_right_pos _ constants_conditioned) | apply M11_gt_0].
Qed.

Lemma pitch_gain_positive :
  0 < (M00 + M02 * cos (rho "theta"%string) * R_top) / minor rho.
Proof.
  destruct constants_actuated as (_ & Htop & Hsmall).
  pose proof (M02_pos _ constants_conditioned) as HB.
  pose proof (COS_bound (rho "theta"%string)) as [Hlo Hhi].
  apply Rdiv_lt_0_compat; [| apply minor_gt_0].
  assert (HBt : 0 < M02 * R_top) by now apply Rmult_lt_0_compat.
  replace (M02 * cos (rho "theta"%string) * R_top)
    with (M02 * R_top * cos (rho "theta"%string)) by ring.
  assert (- (M02 * R_top) <= M02 * R_top * cos (rho "theta"%string)).
  { replace (- (M02 * R_top)) with (M02 * R_top * -1) by ring.
    apply Rmult_le_compat_l; lra. }
  lra.
Qed.

Lemma forward_gain_positive :
  0 <= cos (rho "theta"%string) ->
  0 < (M22 * R_top + M02 * cos (rho "theta"%string)) / minor rho.
Proof.
  intros Hcos.
  destruct constants_actuated as (_ & Htop & _).
  pose proof (M02_pos _ constants_conditioned) as HB.
  pose proof (M22_pos _ constants_conditioned) as HC.
  apply Rdiv_lt_0_compat; [| apply minor_gt_0].
  assert (0 < M22 * R_top) by now apply Rmult_lt_0_compat.
  assert (0 <= M02 * cos (rho "theta"%string))
    by (apply Rmult_le_pos; lra).
  lra.
Qed.

End Gains.

(** X5: for all values of the other symbols, every pair of a yaw
    acceleration and a pitch acceleration is produced by exactly one pair
    of torques. *)
Theorem torques_command_yaw_and_pitch
  (simplify : expr -> expr) (Hs : simplifier simplify) (rho : env)
  (yaw pitch : R) :
  exists tl tr : R,
    (eval (with_torques rho tl tr) (entry (f_of simplify) 2 0) = yaw
     /\ eval (with_torques rho tl tr) (entry (f_of simplify) 3 0) = pitch)
    /\ forall tl' tr' : R,
         eval (with_torques rho tl' tr') (entry (f_of simplify) 2 0) = yaw ->
         eval (with_torques rho tl' tr') (entry (f_of simplify) 3 0) = pitch ->
         tl' = tl /\ tr' = tr.
Proof.
  pose proof (Derivation.f_2_torques constants_conditioned simplify Hs rho)
    as H2.
  pose proof (Derivation.f_3_torques constants_conditioned simplify Hs rho)
    as H3.
  pose proof (yaw_gain_positive rho) as Hy.
  pose proof (pitch_gain_positive rho) as Hp.
  revert H2 H3 Hy Hp.
  generalize (eval (with_torques rho 0 0) (entry (f_of simplify) 2 0))
             (eval (with_torques rho 0 0) (entry (f_of simplify) 3 0))
             (R_right / M11 rho)
             ((M00 + M02 * cos (rho "theta"%string) * R_top) / minor rho).
  intros y0 p0 gy gp H2 H3 Hy Hp.
  exists (((p0 - pitch) / gp - (yaw - y0) / gy) / 2),
         (((p0 - pitch) / gp + (yaw - y0) / gy) / 2).
  split.
  - rewrite H2, H3. split; field; lra.
  - intros tl' tr' E2 E3. rewrite H2 in E2. rewrite H3 in E3.
    assert (Hd : tr' - tl' = (yaw - y0) / gy).
    { apply (Rmult_eq_reg_l gy); [| lra]. field_simplify; lra. }
    assert (Hsum : tl' + tr' = (p0 - pitch) / gp).
    { apply (Rmult_eq_reg_l gp); [| lra]. field_simplify; lra. }
    split; lra.
Qed.

Lemma torques_command_yaw_and_pitch_witness :
  simplifier (fun e => e)
  /\ exists tl tr : R,
       eval (with_torques origin tl tr) (entry (f_of (fun e => e)) 2 0) = 1
       /\ eval (with_torques origin tl tr) (entry (f_of (fun e => e)) 3 0)
          = -1.
Proof.
  split; [exact simplifier_id |].
  destruct (torques_command_yaw_and_pitch _ simplifier_id origin 1 (-1))
    as (tl & tr & Hreach & _).
  now exists tl, tr.
Defined.

(** X6: a larger torque on either wheel gives a smaller pitch
    acceleration and, while [cos(theta)] is not negative, a larger forward
    acceleration; a larger right torque gives a larger yaw acceleration
    and a larger left torque a smaller one. *)
Theorem torque_sign_conventions
  (simplify : expr -> expr) (Hs : simplifier simplify) (rho : env)
  (tl tr d : R) :
  0 < d ->
  (eval (with_torques rho (tl + d) tr) (entry (f_of simplify) 3 0)
   < eval (with_torques rho tl tr) (entry (f_of simplify) 3 0)
   /\ eval (with_torques rho tl (tr + d)) (entry (f_of simplify) 3 0)
      < eval (with_torques rho tl tr) (entry (f_of simplify) 3 0))
  /\ (eval (with_torques rho tl tr) (entry (f_of simplify) 2 0)
      < eval (with_torques rho tl (tr + d)) (entry (f_of simplify) 2 0)
      /\ eval (with_torques rho (tl + d) tr) (entry (f_of simplify) 2 0)
         < eval (with_torques rho tl tr) (entry (f_of simplify) 2 0))
  /\ (0 <= cos (rho "theta"%string) ->
      eval (with_torques rho tl tr) (entry (f_of simplify) 1 0)
      < eval (with_torques rho (tl + d) tr) (entry (f_of simplify) 1 0)
      /\ eval (with_torques rho tl tr) (entry (f_of simplify) 1 0)
         < eval (with_torques rho tl (tr + d)) (entry (f_of simplify) 1 0)).
Proof.
  intros Hd.
  pose proof (Derivation.f_1_torques constants_conditioned simplify Hs rho)
    as H1.
  pose proof (Derivation.f_2_torques constants_conditioned simplify Hs rho)
    as H2.
  pose proof (Derivation.f_3_torques constants_conditioned simplify Hs rho)
    as H3.
  pose proof (yaw_gain_positive rho) as Hy.
  pose proof (pitch_gain_positive rho) as Hp.
  pose proof (forward_gain_positive rho) as Hf.
  revert H1 H2 H3 Hy Hp Hf.
  generalize (eval (with_torques rho 0 0) (entry (f_of simplify) 1 0))
             (eval (with_torques rho 0 0) (entry (f_of simplify) 2 0))
             (eval (with_torques rho 0 0) (entry (f_of simplify) 3 0))
             (R_right / M11 rho)
             ((M00 + M02 * cos (rho "theta"%string) * R_top) / minor rho)
             ((M22 * R_top + M02 * cos (rho "theta"%string)) / minor rho).
  intros v0 y0 p0 gy gp gf H1 H2 H3 Hy Hp Hf.
  assert (Hgy : 0 < gy * d) by now apply Rmult_lt_0_compat.
  assert (Hgp : 0 < gp * d) by now apply Rmult_lt_0_compat.
  split; [| split].
  - rewrite !H3. split; lra.
  - rewrite !H2. split; lra.
  - intros Hcos. specialize (Hf Hcos).
    assert (Hgf : 0 < gf * d) by now apply Rmult_lt_0_compat.
    rewrite !H1. split; lra.
Qed.

Lemma torque_sign_conventions_witness :
  eval (with_torques origin 0 0) (entry (f_of (fun e => e)) 2 0)
  < eval (with_torques origin 0 (0 + 1)) (entry (f_of (fun e => e)) 2 0).
Proof.
  refine (proj1 (proj1 (proj2 (torque_sign_conventions
                                 _ simplifier_id origin 0 0 1 _)))).
  lra.
Defined.

(** X7: the equations are those of a robot that is symmetric between left
    and right.  In the mirrored state (yaw and yaw rate negated, torques
    exchanged) the lateral rate and the yaw acceleration change sign and
    the forward and pitch accelerations are the same. *)
Theorem mirror_symmetry
  (simplify : expr -> expr) (Hs : simplifier simplify) (rho : env) :
  eval (mirror rho) (entry (f_of simplify) 0 0)
  = - eval rho (entry (f_of simplify) 0 0)
  /\ eval (mirror rho) (entry (f_of simplify) 1 0)
     = eval rho (entry (f_of simplify) 1 0)
  /\ eval (mirror rho) (entry (f_of simplify) 2 0)
     = - eval rho (entry (f_of simplify) 2 0)
  /\ eval (mirror rho) (entry (f_of simplify) 3 0)
     = eval rho (entry (f_of simplify) 3 0).
Proof.
  pose proof (minor_gt_0 rho) as Hminor. pose proof (M11_gt_0 rho) as H11.
  rewrite !(Derivation.eval_f_head simplify Hs).
  rewrite !(vdot_form simplify Hs), !(yaw_form simplify Hs),
          !(pitch_form simplify Hs).
  change (minor (mirror rho)) with (minor rho).
  change (M11 (mirror rho)) with (M11 rho).
  unfold b0, b1, b2, mirror. cbn [String.eqb Ascii.eqb Bool.eqb].
  rewrite sin_neg, (R_antisymmetric _ constants_conditioned).
  repeat split; field; lra.
Qed.

Lemma mirror_symmetry_witness :
  simplifier (fun e => e)
  /\ eval (mirror (upd origin "tau_l" 1)) (entry (f_of (fun e => e)) 3 0)
     = eval (upd origin "tau_l" 1) (entry (f_of (fun e => e)) 3 0).
Proof.
  split; [exact simplifier_id |].
  exact (proj2 (proj2 (proj2 (mirror_symmetry
                                _ simplifier_id (upd origin "tau_l" 1))))).
Defined.

(** X8: the forward and pitch accelerations depend on neither [e_lat],
    [phi] nor [v], and the yaw acceleration on neither [e_lat] nor [phi]:
    with another value for one of these symbols the entry has the same
    value. *)
Theorem accelerations_ignore_position
  (simplify : expr -> expr) (Hs : simplifier simplify) (rho : env)
  (x : string) (r : R) :
  x = "e_lat"%string \/ x = "phi"%string \/ x = "v"%string ->
  eval (upd rho x r) (entry (f_of simplify) 1 0)
  = eval rho (entry (f_of simplify) 1 0)
  /\ eval (upd rho x r) (entry (f_of simplify) 3 0)
     = eval rho (entry (f_of simplify) 3 0)
  /\ (x <> "v"%string ->
      eval (upd rho x r) (entry (f_of simplify) 2 0)
      = eval rho (entry (f_of simplify) 2 0)).
Proof.
  intros Hx.
  rewrite !(vdot_form simplify Hs), !(yaw_form simplify Hs),
          !(pitch_form simplify Hs).
  destruct Hx as [-> | [-> | ->]];
    (split; [reflexivity | split; [reflexivity |]]); intros Hv;
    [reflexivity | reflexivity | now contradiction Hv].
Qed.

Lemma accelerations_ignore_position_witness :
  eval (upd origin "v" 5) (entry (f_of (fun e => e)) 1 0)
  = eval origin (entry (f_of (fun e => e)) 1 0).
Proof.
  refine (proj1 (accelerations_ignore_position
                   _ simplifier_id origin "v" 5 _)).
  right. right. reflexivity.
Defined.

(** ** The recorded output *)

Lemma Q2R_half : Q2R (1 # 2) = / 2.
Proof. unfold Q2R. cbn. lra. Qed.

Lemma product_nonzero (a d x : R) :
  0 < a -> 0 < d -> x = - (a * d) -> x <> 0.
Proof.
  intros Ha Hd ->. pose proof (Rmult_lt_0_compat a d Ha Hd). lra.
Qed.

(** A 3x3 system with the sparsity of [M] and its solution. *)
Lemma sparse_system (A B C D b0 b1 b2 x0 x1 x2 : R) :
  A * C - B * B <> 0 -> D <> 0 ->
  (A * x0 + B * x2 = b0 /\ D * x1 = b1 /\ B * x0 + C * x2 = b2)
  <-> (x0 = (C * b0 - B * b2) / (A * C - B * B)
       /\ x1 = b1 / D
       /\ x2 = (A * b2 - B * b0) / (A * C - B * B)).
Proof.
  intros Hminor HD. split.
  - intros (<- & <- & <-). repeat split; field; assumption.
  - intros (-> & -> & ->). repeat split; field; assumption.
Qed.

Ltac exact_coefficients :=
  unfold Out5.k, Out5.exact1, Out5.exact2, Out5.exact3; cbn [nth];
  rewrite ?Q2R_mult, ?Q2R_plus, ?Q2R_minus, ?Q2R_opp, ?Q2R_mult, ?Q2R_half;
  change (Q2R Out5.A) with (@M00 Cell2.constants);
  change (Q2R Out5.B) with (@M02 Cell2.constants);
  change (Q2R Out5.C) with (@M22 Cell2.constants);
  change (Q2R Out5.D_sin) with (@M11_sin Cell2.constants);
  change (Q2R Out5.D_cos) with (@M11_cos Cell2.constants);
  change (Q2R Out5.D_const) with (@M11_const Cell2.constants);
  change (Q2R Out5.N1_coef) with (@N1_coef Cell2.constants);
  change (Q2R Out5.N2_coef) with (@N2_coef Cell2.constants);
  change (Q2R Out5.gravity) with (@gravity_coef Cell2.constants);
  change (Q2R Out5.R_top) with (@R_top Cell2.constants);
  change (Q2R Out5.R_right) with (@R_right Cell2.constants).

Section Rows.
Variable rho : env.

Abbreviation cos_theta := (cos (rho "theta"%string)).

(** The displayed fractions, with exact coefficients, in terms of the
    coefficients of [M] and of the right-hand side. *)
Lemma row1_closed :
  Out5.row1 Out5.exact1 rho
  = (M22 * b0 rho - M02 * cos_theta * b2 rho)
    / (M00 * M22 - M02 * cos_theta * (M02 * cos_theta)).
Proof.
  pose proof (minor_gt_0 rho) as Hminor.
  pose proof (M00_pos _ constants_conditioned) as HA.
  unfold Out5.row1. exact_coefficients.
  rewrite sin_2a. unfold b0, b2, minor in *. change N0_coef with M02.
  field. split; [lra |].
  apply (product_nonzero M00 _ _ HA Hminor). ring.
Qed.

Lemma row2_closed : Out5.row2 Out5.exact2 rho = b1 rho / M11 rho.
Proof.
  pose proof (M11_gt_0 rho) as H11.
  unfold Out5.row2. exact_coefficients.
  rewrite sin_2a. unfold b1, M11 in *.
  rewrite (R_antisymmetric _ constants_conditioned).
  replace (cos (rho "theta"%string) * cos (rho "theta"%string))
    with (1 - sin (rho "theta"%string) * sin (rho "theta"%string)) in *
    by (pose proof (sin2_cos2 (rho "theta"%string)) as H;
        unfold Rsqr in H; lra).
  field. lra.
Qed.

Lemma row3_closed :
  Out5.row3 Out5.exact3 rho
  = (M00 * b2 rho - M02 * cos_theta * b0 rho)
    / (M00 * M22 - M02 * cos_theta * (M02 * cos_theta)).
Proof.
  pose proof (minor_gt_0 rho) as Hminor.
  unfold Out5.row3. exact_coefficients.
  rewrite sin_2a. unfold b0, b2, minor in *. change N0_coef with M02.
  field. split; lra.
Qed.

(** [M x = N + R * tau] on real vectors, equation by equation. *)
Lemma system_equations (x0 x1 x2 : R) :
  rmatvec (meval rho M) [x0; x1; x2]
  = rcolumn (meval rho (matadd N (matmul Cell4.R tau)))
  <-> (M00 * x0 + M02 * cos_theta * x2 = b0 rho
       /\ M11 rho * x1 = b1 rho
       /\ M02 * cos_theta * x0 + M22 * x2 = b2 rho).
Proof.
  change (matadd N (matmul Cell4.R tau))
    with (@Cell4.rhs Cell2.constants Cell3.symbols).
  rewrite (Derivation.rhs_rows (K := Cell2.constants)).
  unfold Cell4.M, rmatvec, rcolumn, rdot.
  cbn [meval map zip_with fold_right hd eval Cell3.theta Cell3.symbols].
  rewrite Derivation.eval_rhs_0, Derivation.eval_rhs_1,
          Derivation.eval_rhs_2, !powerRZ_2.
  fold (@M00 Cell2.constants) (@M02 Cell2.constants) (@M22 Cell2.constants)
       (@M11_sin Cell2.constants) (@M11_cos Cell2.constants)
       (@M11_const Cell2.constants).
  fold (M11 rho). fold (b0 rho) (b1 rho) (b2 rho).
  split.
  - intros Heq. injection Heq as E0 E1 E2. repeat split; lra.
  - intros (E0 & E1 & E2). repeat f_equal; lra.
Qed.

End Rows.

(** X9: the result recorded under cell 5 solves the linear system that
    the notebook sets up.  For all values of the symbols, the three
    displayed fractions, taken with the coefficients computed exactly from
    the floats of [M], [N] and [R], are the one real solution [g] of
    [M * g = N + R * Matrix([[tau_l], [tau_r]])]; and every printed
    coefficient is the exact one to within half a unit of its third
    significant figure. *)
Theorem recorded_output_solves_the_system (rho : env) :
  let g := [Out5.row1 Out5.exact1 rho; Out5.row2 Out5.exact2 rho;
            Out5.row3 Out5.exact3 rho] in
  rmatvec (meval rho M) g
  = rcolumn (meval rho (matadd N (matmul Cell4.R tau)))
  /\ (forall x0 x1 x2 : R,
        rmatvec (meval rho M) [x0; x1; x2]
        = rcolumn (meval rho (matadd N (matmul Cell4.R tau))) ->
        [x0; x1; x2] = g)
  /\ Out5.all_round Out5.exact1 Out5.shown1 = true
  /\ Out5.all_round Out5.exact2 Out5.shown2 = true
  /\ Out5.all_round Out5.exact3 Out5.shown3 = true.
Proof.
  cbv zeta.
  pose proof (minor_gt_0 rho) as Hminor. unfold minor in Hminor.
  pose proof (M11_gt_0 rho) as H11.
  assert (Hsolve :
    forall x0 x1 x2,
      rmatvec (meval rho M) [x0; x1; x2]
      = rcolumn (meval rho (matadd N (matmul Cell4.R tau)))
      <-> (x0 = Out5.row1 Out5.exact1 rho
           /\ x1 = Out5.row2 Out5.exact2 rho
           /\ x2 = Out5.row3 Out5.exact3 rho)).
  { intros x0 x1 x2.
    rewrite system_equations, row1_closed, row2_closed, row3_closed.
    apply sparse_system; lra. }
  split; [| split; [| repeat split; vm_compute; reflexivity]].
  - apply Hsolve. auto.
  - intros x0 x1 x2 Hx. apply Hsolve in Hx as (-> & -> & ->). reflexivity.
Qed.

Lemma recorded_output_solves_the_system_witness :
  [0; 0; 0]
  = [Out5.row1 Out5.exact1 origin; Out5.row2 Out5.exact2 origin;
     Out5.row3 Out5.exact3 origin].
Proof.
  apply (proj1 (proj2 (recorded_output_solves_the_system origin))).
  apply system_equations. unfold b0, b1, b2, origin.
  rewrite sin_0. repeat split; ring.
Defined.

(** ** Cells run in any order *)

Section Orders.
Variable simplify : expr -> expr.
Variable N_sympy : Matrix -> Z -> Matrix.

Abbreviation step := (Kernel.step simplify N_sympy).
Abbreviation run := (Kernel.run simplify N_sympy).
Abbreviation derive := (Kernel.derive simplify).

(** Every name is bound to what the notebook assigns to it, or not at
    all. *)
Abbreviation as_written s :=
  ((Kernel.constants s = None \/ Kernel.constants s = Some Cell2.constants)
   /\ (Kernel.symbols s = None \/ Kernel.symbols s = Some Cell3.symbols)
   /\ (Kernel.derived s = None
       \/ Kernel.derived s
          = Some (derive Cell2.constants Cell3.symbols))).

Lemma step_as_written c s s' : step c s s' -> as_written s -> as_written s'.
Proof.
  intros Hstep (Hc & Hsym & Hd).
  destruct Hstep as [s | s | s Hi | s K S Hi HK HS Hinv | s d Hi Hder];
    cbn; auto.
  repeat split; trivial. right.
  destruct Hc as [Hc | Hc]; [congruence |].
  destruct Hsym as [Hsym | Hsym]; [congruence |].
  rewrite HK in Hc. rewrite HS in Hsym.
  injection Hc as ->. injection Hsym as ->. reflexivity.
Qed.

Lemma run_as_written cs s s' : run cs s s' -> as_written s -> as_written s'.
Proof.
  induction 1 as [s | c cs s s' s'' Hstep Hrun IH]; trivial.
  intros Hs. apply IH. exact (step_as_written _ _ _ Hstep Hs).
Qed.

Lemma run_app pre post s s' :
  run (pre ++ post) s s' -> exists t, run pre s t /\ run post t s'.
Proof.
  revert s. induction pre as [| c pre IH]; intros s Hrun.
  - exists s. split; [constructor | exact Hrun].
  - inversion Hrun as [| c' cs' t t' t'' Hstep Hrest]; subst.
    destruct (IH _ Hrest) as (u & Hpre & Hpost).
    exists u. split; [econstructor; eassumption | exact Hpost].
Qed.

Lemma run_snoc pre c s t t' :
  run pre s t -> step c t t' -> run (pre ++ [c]) s t'.
Proof.
  induction 1 as [s | c0 cs s s' s'' Hstep Hrun IH]; intros Hc; cbn.
  - econstructor; [exact Hc | constructor].
  - econstructor; [exact Hstep | now apply IH].
Qed.

(** A cell runs only where the names it reads are bound. *)
Lemma step_reads c s s' c' : step c s s' -> In c' (reads c) -> bound s c'.
Proof.
  intros Hstep Hin.
  destruct Hstep as [s | s | s Hi | s K S Hi HK HS Hinv | s d Hi Hder];
    cbn in Hin; intuition (subst; cbn; congruence).
Qed.

(** A name is bound only by its cell, and stays bound. *)
Lemma step_binds c s s' c' :
  step c s s' -> (bound s' c' <-> bound s c' \/ c' = c).
Proof.
  intros Hstep.
  destruct Hstep as [s | s | s Hi | s K S Hi HK HS Hinv | s d Hi Hder];
    destruct c'; cbn; split; intros H;
    try (now left); try (now right); try congruence;
    try (destruct H as [H | H]; [exact H | discriminate H]);
    try discriminate.
  intros E. apply app_eq_nil in E as [_ E]. discriminate E.
Qed.

Lemma run_binds cs s s' c' :
  run cs s s' -> (bound s' c' <-> bound s c' \/ In c' cs).
Proof.
  induction 1 as [s | c cs s s' s'' Hstep Hrun IH].
  - cbn. tauto.
  - rewrite IH, (step_binds _ _ _ c' Hstep). cbn.
    split; intros H; intuition (subst; auto).
Qed.

Lemma fresh_unbound c : ~ bound Kernel.fresh c.
Proof. destruct c; cbn; congruence. Qed.

(** A cell whose names are bound as written runs. *)
Lemma step_exists c s :
  as_written s -> (forall c', In c' (reads c) -> bound s c') ->
  exists s', step c s s'.
Proof.
  intros (Hc & Hsym & Hd) Hb.
  destruct c; cbn in Hb.
  - eexists. apply Kernel.step_imports.
  - eexists. apply Kernel.step_constants.
  - eexists. apply Kernel.step_symbols. apply (Hb Kernel.cell1). auto.
  - pose proof (Hb Kernel.cell1) as H1. pose proof (Hb Kernel.cell2) as H2.
    pose proof (Hb Kernel.cell3) as H3. cbn in H1, H2, H3.
    destruct Hc as [Hc | Hc]; [exfalso; apply H2; auto |].
    destruct Hsym as [Hsym | Hsym]; [exfalso; apply H3; auto |].
    eexists. eapply Kernel.step_derive; [auto | exact Hc | exact Hsym |].
    apply Derivation.M_not_singular, constants_conditioned.
  - pose proof (Hb Kernel.cell1) as H1. pose proof (Hb Kernel.cell4) as H4.
    cbn in H1, H4.
    destruct (Kernel.derived s) as [d |] eqn:Hder;
      [| exfalso; apply H4; auto].
    eexists. eapply Kernel.step_display; [auto | exact Hder].
Qed.

Lemma fresh_as_written : as_written Kernel.fresh.
Proof. cbn. auto. Qed.

End Orders.




(** X11: the sequences of cells that run to the end on a fresh kernel are
    exactly those in which every cell comes after the cells whose names it
    reads: cell 3 after cell 1, cell 4 after cells 1, 2 and 3, and cell 5
    after cells 1 and 4.  In any other order a cell raises [NameError]. *)
Theorem runs_are_the_well_ordered_sequences
  (simplify : expr -> expr) (N_sympy : Matrix -> Z -> Matrix)
  (cs : list Kernel.cell) :
  (exists s, Kernel.run simplify N_sympy cs Kernel.fresh s)
  <-> well_ordered cs.
Proof.
  split.
  - intros (s & Hrun) pre c post -> c' Hin.
    destruct (run_app simplify N_sympy _ _ _ _ Hrun) as (t & Hpre & Hpost).
    inversion Hpost as [| c0 cs0 u u' u'' Hstep Hrest]; subst.
    pose proof (step_reads simplify N_sympy _ _ _ _ Hstep Hin) as Hb.
    apply (run_binds simplify N_sympy _ _ _ c' Hpre) in Hb.
    destruct Hb as [Hb | Hb]; [| exact Hb].
    now apply fresh_unbound in Hb.
  - induction cs as [| c pre IH] using rev_ind; intros Hord.
    + exists Kernel.fresh. constructor.
    + destruct IH as (t & Hrun).
      { intros pre' c0 post Heq. apply (Hord pre' c0 (post ++ [c])).
        rewrite Heq, <- app_assoc. reflexivity. }
      destruct (step_exists simplify N_sympy c t) as (t' & Hstep).
      * exact (run_as_written simplify N_sympy _ _ _ Hrun
                 (fresh_as_written simplify)).
      * intros c' Hin.
        apply (run_binds simplify N_sympy _ _ _ c' Hrun). right.
        apply (Hord pre c [] eq_refl c' Hin).
      * exists t'. exact (run_snoc simplify N_sympy _ _ _ _ _ Hrun Hstep).
Qed.

Lemma runs_are_the_well_ordered_sequences_witness :
  well_ordered Kernel.notebook
  /\ ~ well_ordered [Kernel.cell2; Kernel.cell3; Kernel.cell4; Kernel.cell5].
Proof.
  split.
  - apply (runs_are_the_well_ordered_sequences (fun e => e) (fun A _ => A)).
    exists (Kernel.final (fun e => e) (fun A _ => A)). apply run_final.
  - intros Hord.
    destruct (Hord [Kernel.cell2] Kernel.cell3
                [Kernel.cell4; Kernel.cell5] eq_refl Kernel.cell1)
      as [H | []]; [now left | discriminate H].
Defined.
